(** * bds-version-lookup: the version cache with background refresh

    A shallow embedding of [src/utils.ts], [src/config.ts] and the
    [/cache/status] handler of [src/index.ts].

    The program runs on a single-threaded event loop.  An [async] function
    runs without interruption up to its first [await]; the only awaited
    operation that really suspends is the Fetcher
    ([lookupLatestVersionInternal], a browser session).  The embedding
    therefore splits every [async] function at that [await]: the part before
    it is a state transformer that registers a suspended task, the part after
    it is the transformer that runs when the Fetcher settles.  The event loop
    is the function [step]; a run of the program is a list of events: calls
    of the exported functions, settlings of Fetcher calls, with what the
    browser session produced, and new readings of the clock ([Date.now()]
    is read at most once per event).

    Cache entries are JavaScript objects: [refreshCacheEntry] keeps a
    reference to the entry it read before the [await] and writes to that very
    object afterwards, whereas [setCachedVersion] installs a new object.  The
    state therefore has a heap of entry objects and a map from cache keys to
    addresses. *)

From Stdlib Require Import ZArith Ascii String List Permutation.
From stdpp Require Import base option list gmap strings.

Local Open Scope string_scope.
Local Open Scope Z_scope.

(** ** Configuration ([src/config.ts]) *)

Definition CACHE_DURATION_MS : Z := 6 * 60 * 60 * 1000.

Inductive BdsType := win | linux.

Definition VALID_BDS_TYPES : list string := ["win"; "linux"].

Definition bdsTypeStr (t : BdsType) : string :=
  match t with win => "win" | linux => "linux" end.

#[global] Instance BdsType_eq_dec : EqDecision BdsType.
Proof. solve_decision. Defined.

(** A platform/channel pair, the argument list [(bdsType, bdsPreview)]. *)
Abbreviation Key := (BdsType * bool)%type.

(** ** Strings *)

Definition is_upper (c : ascii) : bool :=
  let n := N_of_ascii c in ((65 <=? n) && (n <=? 90))%N.

Definition lower_ascii (c : ascii) : ascii :=
  if is_upper c then ascii_of_N (N_of_ascii c + 32) else c.

(** [String.prototype.toLowerCase] on the code units below 128; other code
    units are kept (no character outside ASCII lowercases to a letter of
    "true" or "false", so [parsePreviewParam] cannot tell the difference). *)
Fixpoint toLowerCase (s : string) : string :=
  match s with
  | EmptyString => EmptyString
  | String c r => String (lower_ascii c) (toLowerCase r)
  end.

(** JavaScript truthiness of a string: every string but the empty one. *)
Definition truthy (s : string) : bool := negb (String.eqb s "").

Definition is_digit (c : ascii) : bool :=
  let n := N_of_ascii c in ((48 <=? n) && (n <=? 57))%N.

(** The longest run of digits at the head of [s], and what follows it. *)
Fixpoint span_digits (s : string) : string * string :=
  match s with
  | String c r =>
      if is_digit c then let '(d, r') := span_digits r in (String c d, r')
      else (EmptyString, s)
  | EmptyString => (EmptyString, EmptyString)
  end.

(** [\d+] followed by something that is not a digit: the greedy run is the
    only candidate, a shorter run would leave a digit in front of the
    literal that follows. *)
Definition digits1 (s : string) : option (string * string) :=
  let '(d, r) := span_digits s in
  if String.eqb d "" then None else Some (d, r).

Fixpoint strip_prefix (p s : string) : option string :=
  match p, s with
  | EmptyString, _ => Some s
  | String a p', String b s' =>
      if Ascii.eqb a b then strip_prefix p' s' else None
  | String _ _, EmptyString => None
  end.

(** [/bedrock-server-(\d+\.\d+\.\d+\.\d+)\.zip$/] tried at the head of [s];
    the result is capture group 1. *)
Definition match_here (s : string) : option string :=
  r0 ← strip_prefix "bedrock-server-" s;
  '(d1, r1) ← digits1 r0;
  r2 ← strip_prefix "." r1;
  '(d2, r3) ← digits1 r2;
  r4 ← strip_prefix "." r3;
  '(d3, r5) ← digits1 r4;
  r6 ← strip_prefix "." r5;
  '(d4, r7) ← digits1 r6;
  r8 ← strip_prefix ".zip" r7;
  if String.eqb r8 "" then Some (d1 +:+ "." +:+ d2 +:+ "." +:+ d3 +:+ "." +:+ d4)
  else None.

(** [href.match(...)]: the leftmost position at which the pattern matches. *)
Fixpoint regex_match (s : string) : option string :=
  match match_here s with
  | Some v => Some v
  | None =>
      match s with
      | EmptyString => None
      | String _ r => regex_match r
      end
  end.

(** ** [parsePreviewParam] and [isValidBdsType] *)

Definition parsePreviewParam (preview : string) : option bool :=
  let lower := toLowerCase preview in
  if String.eqb lower "true" || String.eqb lower "1" then Some true
  else if String.eqb lower "false" || String.eqb lower "0" then Some false
  else None.

Definition isValidBdsType (type : string) : bool :=
  existsb (String.eqb type) VALID_BDS_TYPES.

(** ** The Fetcher ([lookupLatestVersionInternal]) *)

Inductive Result :=
| Ok (v : string)
| Err (msg : string).

(** What the browser session hands to the last two steps of the Fetcher:
    one of the awaited browser calls threw, or [page.$eval] produced the
    [href] of the download button. *)
Inductive PageOutcome :=
| PageThrew (msg : string)
| PageHref (href : string).

Definition channelStr (bdsPreview : bool) : string :=
  if bdsPreview then "preview" else "stable".

(** The code of [lookupLatestVersionInternal] after the browser is closed:
    [if (!href) throw], the regular expression, [if (!m?.[1]) throw]. *)
Definition lookupLatestVersionInternal
    (bdsType : BdsType) (bdsPreview : bool) (o : PageOutcome) : Result :=
  match o with
  | PageThrew e => Err e
  | PageHref href =>
      if negb (truthy href) then
        Err ("No download link found for " +:+ bdsTypeStr bdsType +:+ " "
             +:+ channelStr bdsPreview)
      else
        match regex_match href with
        | Some v =>
            if truthy v then Ok v
            else Err ("Failed to parse version from URL: " +:+ href)
        | None => Err ("Failed to parse version from URL: " +:+ href)
        end
  end.

(** ** The cache store *)

(** [interface CacheEntry].  [refreshing] is optional in the interface, but
    the only place that creates an entry, [setCachedVersion], always sets
    it. *)
Record CacheEntry := mkEntry {
  version : string;
  timestamp : Z;
  refreshing : bool
}.

Definition with_refreshing (b : bool) (e : CacheEntry) : CacheEntry :=
  mkEntry (version e) (timestamp e) b.

(** A suspended [async] call waiting for the Fetcher, with the variables its
    continuation still uses. *)
Inductive Task :=
| Miss (bdsType : BdsType) (bdsPreview : bool)
    (** [lookupLatestVersion] at its [await] (no cached version) *)
| Refresh (bdsType : BdsType) (bdsPreview : bool) (entry : option nat)
    (** [refreshCacheEntry] at its [await]; [entry] is the object the local
        variable [entry] refers to, [None] for [undefined] *)
| Warm (bdsType : BdsType) (bdsPreview : bool) (group : nat)
    (** one of the four callbacks of [initializeCache] at its [await];
        [group] is the [Promise.all] it belongs to *).

Definition task_key (t : Task) : Key :=
  match t with
  | Miss ty pv => (ty, pv)
  | Refresh ty pv _ => (ty, pv)
  | Warm ty pv _ => (ty, pv)
  end.

Record State := mkState {
  heap : list CacheEntry;          (** the entry objects, by address *)
  versionCache : gmap string nat;  (** [const versionCache: CacheStore] *)
  tasks : list (option Task);      (** suspended calls; [None] once settled *)
  initPending : list nat;          (** per [Promise.all], callbacks not yet settled *)
  fetchLog : list Key;             (** the Fetcher invocations so far, oldest first *)
  now : Z                          (** the reading of [Date.now()] *)
}.

Definition initial : State := mkState [] ∅ [] [] [] 0.

Definition set_heap (h : list CacheEntry) (s : State) : State :=
  mkState h (versionCache s) (tasks s) (initPending s) (fetchLog s) (now s).
Definition set_versionCache (m : gmap string nat) (s : State) : State :=
  mkState (heap s) m (tasks s) (initPending s) (fetchLog s) (now s).
Definition set_tasks (t : list (option Task)) (s : State) : State :=
  mkState (heap s) (versionCache s) t (initPending s) (fetchLog s) (now s).
Definition set_initPending (p : list nat) (s : State) : State :=
  mkState (heap s) (versionCache s) (tasks s) p (fetchLog s) (now s).
Definition set_fetchLog (l : list Key) (s : State) : State :=
  mkState (heap s) (versionCache s) (tasks s) (initPending s) l (now s).
Definition set_now (t : Z) (s : State) : State :=
  mkState (heap s) (versionCache s) (tasks s) (initPending s) (fetchLog s) t.

Definition getCacheKey (bdsType : BdsType) (bdsPreview : bool) : string :=
  bdsTypeStr bdsType +:+ "-" +:+ channelStr bdsPreview.

(** [Date.now() - entry.timestamp < CACHE_DURATION_MS] *)
Definition isCacheValid (s : State) (entry : CacheEntry) : bool :=
  now s - timestamp entry <? CACHE_DURATION_MS.

(** [versionCache[key]], dereferenced. *)
Definition entryOf (s : State) (key : string) : option CacheEntry :=
  l ← versionCache s !! key; heap s !! l.

Definition getCachedVersion (s : State) (bdsType : BdsType) (bdsPreview : bool)
  : option string :=
  let key := getCacheKey bdsType bdsPreview in
  match entryOf s key with
  | None => None
  | Some entry => Some (version entry)
  end.

(** [versionCache[key] = { version, timestamp: Date.now(), refreshing: false }]:
    a new object, at a new address. *)
Definition setCachedVersion (bdsType : BdsType) (bdsPreview : bool)
    (v : string) (s : State) : State :=
  let key := getCacheKey bdsType bdsPreview in
  set_versionCache (<[key := length (heap s)]> (versionCache s))
    (set_heap (heap s ++ [mkEntry v (now s) false]) s).

(** The call [lookupLatestVersionInternal(bdsType, bdsPreview)] itself: the
    browser is launched before the caller's [await] suspends. *)
Definition invokeFetcher (bdsType : BdsType) (bdsPreview : bool) (s : State) : State :=
  set_fetchLog (fetchLog s ++ [(bdsType, bdsPreview)]) s.

Definition suspend (t : Task) (s : State) : State :=
  set_tasks (tasks s ++ [Some t]) s.

(** [entry.refreshing = b], guarded by [if (entry)]. *)
Definition writeRefreshing (entry : option nat) (b : bool) (s : State) : State :=
  match entry with
  | Some l => set_heap (alter (with_refreshing b) l (heap s)) s
  | None => s
  end.

(** [entry?.refreshing] *)
Definition readRefreshing (entry : option nat) (s : State) : bool :=
  match entry with
  | Some l => match heap s !! l with Some e => refreshing e | None => false end
  | None => false
  end.

(** [refreshCacheEntry] up to its [await]. *)
Definition refreshCacheEntry (bdsType : BdsType) (bdsPreview : bool) (s : State)
  : State :=
  let key := getCacheKey bdsType bdsPreview in
  let entry := versionCache s !! key in
  if readRefreshing entry s then s
  else
    suspend (Refresh bdsType bdsPreview entry)
      (invokeFetcher bdsType bdsPreview (writeRefreshing entry true s)).

(** [refreshCacheEntry] after its [await]: the [try] block's remainder or
    the [catch] block. *)
Definition refreshCacheEntry_resume (bdsType : BdsType) (bdsPreview : bool)
    (entry : option nat) (r : Result) (s : State) : State :=
  match r with
  | Ok newVersion => setCachedVersion bdsType bdsPreview newVersion s
  | Err _ => writeRefreshing entry false s
  end.

Definition checkAndRefreshCache (bdsType : BdsType) (bdsPreview : bool) (s : State)
  : State :=
  let key := getCacheKey bdsType bdsPreview in
  match entryOf s key with
  | None => refreshCacheEntry bdsType bdsPreview s
  | Some entry =>
      if negb (isCacheValid s entry) then refreshCacheEntry bdsType bdsPreview s
      else s
  end.

(** What a call observably yields at the event that runs it. *)
Inductive PromiseResult := Fulfilled | Rejected.

Record StatusEntry := mkStatusEntry {
  st_type : BdsType;
  st_preview : bool;
  st_cached : bool;
  st_version : option string
}.

Record StatusOutput := mkStatus {
  cacheDurationMs : Z;
  cacheDurationHours : Z;
  entries : list StatusEntry;
  status_timestamp : Z
}.

Inductive Output :=
| OutNone
| OutLookup (r : Result)               (** [lookupLatestVersion]'s promise settles *)
| OutInit (group : nat) (r : PromiseResult)  (** [initializeCache]'s promise settles *)
| OutStatus (st : StatusOutput).       (** the body of the [/cache/status] response *)

(** [lookupLatestVersion] up to its [return] or its [await]. *)
Definition lookupLatestVersion (bdsType : BdsType) (bdsPreview : bool) (s : State)
  : State * Output :=
  let miss :=
    (suspend (Miss bdsType bdsPreview) (invokeFetcher bdsType bdsPreview s), OutNone) in
  match getCachedVersion s bdsType bdsPreview with
  | Some cachedVersion =>
      if truthy cachedVersion then
        (checkAndRefreshCache bdsType bdsPreview s, OutLookup (Ok cachedVersion))
      else miss
  | None => miss
  end.

(** [lookupLatestVersion] after its [await]. *)
Definition lookupLatestVersion_resume (bdsType : BdsType) (bdsPreview : bool)
    (r : Result) (s : State) : State * Output :=
  match r with
  | Ok v => (setCachedVersion bdsType bdsPreview v s, OutLookup (Ok v))
  | Err e => (s, OutLookup (Err e))
  end.

Definition combinations : list Key :=
  [(win, false); (win, true); (linux, false); (linux, true)].

(** [initializeCache] up to [await Promise.all(initPromises)]: [map] runs the
    four callbacks in order, each up to its own [await]. *)
Definition initializeCache (s : State) : State :=
  let group := length (initPending s) in
  let s0 := set_initPending (initPending s ++ [length combinations]) s in
  foldl (fun st '(type, preview) =>
           suspend (Warm type preview group) (invokeFetcher type preview st))
        s0 combinations.

(** One callback of [initializeCache] after its [await]: the [try] block's
    remainder or the [catch] block; either way the callback returns. *)
Definition initCallback_resume (type : BdsType) (preview : bool)
    (r : Result) (s : State) : State * PromiseResult :=
  match r with
  | Ok v => (setCachedVersion type preview v s, Fulfilled)
  | Err _ => (s, Fulfilled)
  end.

(** [Promise.all]: a rejected element rejects the whole, the last fulfilled
    element fulfils it. *)
Definition promiseAll_settle (group : nat) (r : PromiseResult) (s : State)
  : State * Output :=
  match r with
  | Rejected => (s, OutInit group Rejected)
  | Fulfilled =>
      match initPending s !! group with
      | Some (S n) =>
          (set_initPending (<[group := n]> (initPending s)) s,
           match n with O => OutInit group Fulfilled | S _ => OutNone end)
      | _ => (s, OutNone)
      end
  end.

(** The handler of [GET /cache/status].  [CACHE_DURATION_MS / (1000 * 60 * 60)]
    is exact, so integer division gives the handler's number; the
    [timestamp] field, an ISO rendering of the clock, is carried as the
    clock reading. *)
Definition cacheStatus (s : State) : StatusOutput :=
  mkStatus CACHE_DURATION_MS (CACHE_DURATION_MS / (1000 * 60 * 60))
    (map (fun '(type, preview) =>
            let cachedVersion := getCachedVersion s type preview in
            mkStatusEntry type preview
              (match cachedVersion with Some _ => true | None => false end)
              (match cachedVersion with
               | Some v => if truthy v then Some v else None
               | None => None
               end))
         combinations)
    (now s).

(** ** The event loop *)

Inductive Event :=
| EvClock (t : Z)                       (** the clock now reads [t] *)
| EvLookup (bdsType : BdsType) (bdsPreview : bool)
| EvCheckAndRefresh (bdsType : BdsType) (bdsPreview : bool)
| EvInit
| EvStatus
| EvSettle (id : nat) (o : PageOutcome). (** the Fetcher call of task [id] settles *)

Definition settle (id : nat) (o : PageOutcome) (s : State) : State * Output :=
  match tasks s !! id with
  | Some (Some t) =>
      let s0 := set_tasks (<[id := None]> (tasks s)) s in
      match t with
      | Miss ty pv =>
          lookupLatestVersion_resume ty pv (lookupLatestVersionInternal ty pv o) s0
      | Refresh ty pv entry =>
          (refreshCacheEntry_resume ty pv entry (lookupLatestVersionInternal ty pv o) s0,
           OutNone)
      | Warm ty pv group =>
          let '(s1, r) :=
            initCallback_resume ty pv (lookupLatestVersionInternal ty pv o) s0 in
          promiseAll_settle group r s1
      end
  | _ => (s, OutNone)
  end.

Definition step (s : State) (ev : Event) : State * Output :=
  match ev with
  | EvClock t => (set_now t s, OutNone)
  | EvLookup ty pv => lookupLatestVersion ty pv s
  | EvCheckAndRefresh ty pv => (checkAndRefreshCache ty pv s, OutNone)
  | EvInit => (initializeCache s, OutNone)
  | EvStatus => (s, OutStatus (cacheStatus s))
  | EvSettle id o => settle id o s
  end.

(** The state after a run, and what each event yielded. *)
Fixpoint run (s : State) (evs : list Event) : State * list Output :=
  match evs with
  | [] => (s, [])
  | ev :: evs' =>
      let '(s1, o) := step s ev in
      let '(s2, os) := run s1 evs' in
      (s2, o :: os)
  end.

Definition exec (s : State) (evs : list Event) : State := fst (run s evs).

Inductive reachable : State -> Prop :=
| reach_initial : reachable initial
| reach_step s ev : reachable s -> reachable (fst (step s ev)).

(** The number of Fetcher invocations for a key so far. *)
Definition fetchCount (k : Key) (s : State) : nat :=
  length (filter (fun k' => k' = k) (fetchLog s)).

(** The tasks in flight. *)
Definition inFlight (s : State) (id : nat) (t : Task) : Prop :=
  tasks s !! id = Some (Some t).

(** ** Notions used in the statements *)

(** Whether the Fetcher succeeds does not depend on the key, only the text
    of one error message does. *)
Definition pageSucceeds (o : PageOutcome) : bool :=
  match lookupLatestVersionInternal win false o with
  | Ok _ => true
  | Err _ => false
  end.

(** Equality of characters up to the case of the letters A-Z, stated on the
    character codes rather than through [toLowerCase]. *)
Definition eq_ignore_case_ascii (a b : ascii) : bool :=
  Ascii.eqb a b
  || (is_upper a && (N_of_ascii b =? N_of_ascii a + 32)%N)
  || (is_upper b && (N_of_ascii a =? N_of_ascii b + 32)%N).

Fixpoint eq_ignore_case (s t : string) : bool :=
  match s, t with
  | EmptyString, EmptyString => true
  | String a s', String b t' => eq_ignore_case_ascii a b && eq_ignore_case s' t'
  | _, _ => false
  end.

Fixpoint no_upper (s : string) : bool :=
  match s with
  | EmptyString => true
  | String c r => negb (is_upper c) && no_upper r
  end.

(** What holds of every reachable state: cached addresses are allocated and
    distinct per key; stored versions are non-empty; an entry held by a
    suspended refresh is allocated and, if cached at all, cached under the
    refresh's own key; every suspended call and every cached key has its
    Fetcher invocation in the log. *)
Record WF (s : State) : Prop := mkWF {
  wf_addr : forall key l,
    versionCache s !! key = Some l -> (l < length (heap s))%nat;
  wf_inj : forall k1 k2 l,
    versionCache s !! k1 = Some l -> versionCache s !! k2 = Some l -> k1 = k2;
  wf_truthy : forall l e, heap s !! l = Some e -> truthy (version e) = true;
  wf_captured : forall id ty pv l,
    tasks s !! id = Some (Some (Refresh ty pv (Some l))) ->
    (l < length (heap s))%nat /\
    forall key, versionCache s !! key = Some l -> key = getCacheKey ty pv;
  wf_logged_task : forall id t,
    tasks s !! id = Some (Some t) -> task_key t ∈ fetchLog s;
  wf_logged_entry : forall key l,
    versionCache s !! key = Some l ->
    exists ty pv, key = getCacheKey ty pv /\ (ty, pv) ∈ fetchLog s
}.

(** A cached entry that is marked is held by a refresh in flight. *)
Definition Held (s : State) : Prop :=
  forall key l e,
    versionCache s !! key = Some l -> heap s !! l = Some e ->
    refreshing e = true ->
    exists id ty pv, inFlight s id (Refresh ty pv (Some l)).

(** Two readings of a key agree on everything but the [refreshing] flag. *)
Definition same_data (o o' : option CacheEntry) : Prop :=
  match o, o' with
  | Some e, Some e' => version e' = version e /\ timestamp e' = timestamp e
  | None, None => True
  | _, _ => False
  end.

(** The one way an entry's data changes: a suspended call for that key is
    resumed with a version the Fetcher returned. *)
Definition writes (s : State) (ev : Event) (key : string) (e' : CacheEntry) : Prop :=
  exists id o t,
    ev = EvSettle id o /\ inFlight s id t /\
    key = getCacheKey (task_key t).1 (task_key t).2 /\
    lookupLatestVersionInternal (task_key t).1 (task_key t).2 o = Ok (version e') /\
    timestamp e' = now s /\ refreshing e' = false.

(** No Fetcher call settles with a version at this event. *)
Definition no_fetch_completes (ev : Event) : Prop :=
  forall id o, ev = EvSettle id o -> pageSucceeds o = false.

Definition settleEvents (settles : list (nat * PageOutcome)) : list Event :=
  map (fun p => EvSettle p.1 p.2) settles.

(** What the settling of [k] warm-up callbacks yields while [pending]
    callbacks of their [Promise.all] are outstanding. *)
Fixpoint warm_outputs (g pending k : nat) : list Output :=
  match k with
  | O => []
  | S k' =>
      (match pending with 1%nat => OutInit g Fulfilled | _ => OutNone end)
      :: warm_outputs g (pending - 1) k'
  end.

(** A refresh of key [k] is in flight as task [id0]; it holds the entry at
    address [l], which is the key's cached entry.  [Frame] is what an event
    must leave alone for that refresh to stay the only one. *)
Definition Frame (k : Key) (l id0 : nat) (s s' : State) : Prop :=
  versionCache s' !! getCacheKey k.1 k.2 = versionCache s !! getCacheKey k.1 k.2 /\
  heap s' !! l = heap s !! l /\
  fetchCount k s' = fetchCount k s /\
  tasks s' !! id0 = tasks s !! id0 /\
  (forall id t, inFlight s' id t -> task_key t = k -> inFlight s id t).

(** The state of affairs during the refresh. *)
Record Window (k : Key) (l id0 : nat) (v : string) (ts : Z) (c : nat)
    (s : State) : Prop := mkWindow {
  win_wf : WF s;
  win_map : versionCache s !! getCacheKey k.1 k.2 = Some l;
  win_entry : heap s !! l = Some (mkEntry v ts true);
  win_task : inFlight s id0 (Refresh k.1 k.2 (Some l));
  win_only : forall id t, inFlight s id t -> task_key t = k -> id = id0;
  win_count : fetchCount k s = c
}.

(** The events between the launch of the refresh and its settling that
    the guarantee covers: everything but the settling itself and a new
    run of [initializeCache]. *)
Definition window_event (id0 : nat) (ev : Event) : Prop :=
  ev <> EvInit /\ forall o, ev <> EvSettle id0 o.

(** ** Sample inputs *)

Definition sample_href : string :=
  "https://www.minecraft.net/bedrockdedicatedserver/bin-win/bedrock-server-1.21.84.1.zip".

Definition href_of (v : string) : string :=
  "https://www.minecraft.net/bedrockdedicatedserver/bin-win/bedrock-server-"
  +:+ v +:+ ".zip".

(** One lookup of win/stable on the empty cache, answered by the Fetcher
    with version 1.0.0.0 at time 0. *)
Definition run_cached : list Event :=
  [EvLookup win false; EvSettle 0 (PageHref (href_of "1.0.0.0"))].

(** The same, six hours later. *)
Definition run_stale : list Event :=
  run_cached ++ [EvClock CACHE_DURATION_MS].

(** The same, with the refresh that the next lookup launches. *)
Definition run_refreshing : list Event :=
  run_stale ++ [EvLookup win false].

(** * The model, continued: version strings, keys and the request layer *)

(** ** Version strings *)

Fixpoint all_digits (s : string) : bool :=
  match s with
  | EmptyString => true
  | String c r => is_digit c && all_digits r
  end.

(** A non-empty run of decimal digits. *)
Definition digit_run (d : string) : Prop := d <> "" /\ all_digits d = true.

(** Four runs of digits separated by dots, like 1.21.84.1. *)
Definition is_version (v : string) : Prop :=
  exists d1 d2 d3 d4,
    digit_run d1 /\ digit_run d2 /\ digit_run d3 /\ digit_run d4 /\
    v = d1 +:+ "." +:+ d2 +:+ "." +:+ d3 +:+ "." +:+ d4.

(** The href the download button carries for version [v], after any prefix. *)
Definition download_href (pre v : string) : string :=
  pre +:+ "bedrock-server-" +:+ v +:+ ".zip".

(** No character of [s] satisfies [p]. *)
Fixpoint none_of (p : ascii -> bool) (s : string) : bool :=
  match s with
  | EmptyString => true
  | String c r => negb (p c) && none_of p r
  end.

(** What follows a greedy run of digits does not start with a digit. *)
Definition no_digit_ahead (r : string) : Prop :=
  match r with
  | EmptyString => True
  | String c _ => is_digit c = false
  end.

(** ** Events and keys *)

(** The key an event is about, if any: the key looked up or triggered, or
    the key of the suspended call that settles. *)
Definition event_key (s : State) (ev : Event) : option Key :=
  match ev with
  | EvLookup ty pv => Some (ty, pv)
  | EvCheckAndRefresh ty pv => Some (ty, pv)
  | EvSettle id _ =>
      match tasks s !! id with
      | Some (Some t) => Some (task_key t)
      | _ => None
      end
  | _ => None
  end.

(** The four cache keys. *)
Definition cacheKeys : list string :=
  map (fun k => getCacheKey k.1 k.2) combinations.

(** ** The request layer ([src/index.ts]) *)

(** [Array.prototype.join] *)
Fixpoint join (sep : string) (l : list string) : string :=
  match l with
  | [] => ""
  | [x] => x
  | x :: r => x +:+ sep +:+ join sep r
  end.

(** The JSON bodies of the [/version] route. *)
Inductive Body :=
| ErrorBody (error message : string) (received : option string)
| VersionBody (version type : string) (preview cached : bool) (timestamp : Z).

Record Response := mkResponse { status : nat; body : Body }.

(** The narrowing that the type guard [isValidBdsType] licenses: once the
    guard has passed, a string that is not "win" is "linux". *)
Definition asBdsType (type : string) : BdsType :=
  if String.eqb type "win" then win else linux.

(** The [try] block after [await lookupLatestVersion(...)] and the [catch]
    block: [res.json] answers 200, the handler of a thrown error 500 with
    [err.message || "Failed to lookup version"]. *)
Definition versionResponse (type : string) (preview isFromCache : bool)
    (r : Result) (t : Z) : Response :=
  match r with
  | Ok version => mkResponse 200 (VersionBody version type preview isFromCache t)
  | Err message =>
      mkResponse 500
        (ErrorBody "Internal server error"
           (if truthy message then message else "Failed to lookup version") None)
  end.

Inductive HandlerStep :=
| Responded (r : Response)
| Awaiting (type : string) (bdsType : BdsType) (parsedPreview isFromCache : bool)
    (** suspended at [await lookupLatestVersion(...)], itself suspended on
        the Fetcher *).

(** The handler of [GET /version/:type/:preview], up to its response or to
    the suspension of its lookup.  When the lookup answers from the cache its
    promise is already settled, so the handler resumes before any other
    event and reads the clock of the same step. *)
Definition versionHandler (type preview : string) (s : State) : State * HandlerStep :=
  if negb (truthy type) || negb (isValidBdsType type) then
    (s, Responded (mkResponse 400
          (ErrorBody "Invalid type parameter"
             ("Type must be one of: " +:+ join ", " VALID_BDS_TYPES) (Some type))))
  else
    match parsePreviewParam preview with
    | None =>
        (s, Responded (mkResponse 400
              (ErrorBody "Invalid preview parameter"
                 "Preview must be 'true', 'false', '1', or '0'" (Some preview))))
    | Some parsedPreview =>
        let bdsType := asBdsType type in
        let cachedVersion := getCachedVersion s bdsType parsedPreview in
        let isFromCache :=
          match cachedVersion with Some _ => true | None => false end in
        let '(s1, out) := lookupLatestVersion bdsType parsedPreview s in
        match out with
        | OutLookup r =>
            (s1, Responded (versionResponse type parsedPreview isFromCache r (now s1)))
        | _ => (s1, Awaiting type bdsType parsedPreview isFromCache)
        end
    end.

(** The rest of the handler, run when the Fetcher call [id] that its lookup
    waits for settles. *)
Definition versionHandler_resume (h : HandlerStep) (id : nat) (o : PageOutcome)
    (s : State) : State * option Response :=
  match h with
  | Responded _ => (s, None)
  | Awaiting type _ parsedPreview isFromCache =>
      let '(s1, out) := settle id o s in
      match out with
      | OutLookup r =>
          (s1, Some (versionResponse type parsedPreview isFromCache r (now s1)))
      | _ => (s1, None)
      end
  end.

(** * Properties *)

(** ** Sample evaluations *)

Example regex_match_ex1 :
  regex_match "https://www.minecraft.net/bedrockdedicatedserver/bin-win/bedrock-server-1.21.84.1.zip"
  = Some "1.21.84.1".
Proof. reflexivity. Qed.

Example regex_match_ex2 : regex_match "bedrock-server-1.21.84.zip" = None.
Proof. reflexivity. Qed.

Example regex_match_ex3 : regex_match "bedrock-server-1.2.3.4.zip?x" = None.
Proof. reflexivity. Qed.

Example parsePreviewParam_ex :
  parsePreviewParam "TrUe" = Some true /\ parsePreviewParam "0" = Some false
  /\ parsePreviewParam "yes" = None.
Proof. repeat split; reflexivity. Qed.

(** ** Keys and the Fetcher *)

Lemma getCacheKey_inj ty pv ty' pv' :
  getCacheKey ty pv = getCacheKey ty' pv' -> ty = ty' /\ pv = pv'.
Proof. destruct ty, pv, ty', pv'; simpl; intros H; try discriminate H; auto. Qed.

Lemma getCacheKey_ne ty pv ty' pv' :
  (ty', pv') <> (ty, pv) -> getCacheKey ty' pv' <> getCacheKey ty pv.
Proof. intros Hne Heq. apply getCacheKey_inj in Heq as [-> ->]. by apply Hne. Qed.

Lemma truthy_true v : truthy v = true <-> v <> "".
Proof.
  unfold truthy. rewrite negb_true_iff. split.
  - intros H ->. by rewrite String.eqb_refl in H.
  - intros H. by apply String.eqb_neq.
Qed.

(** A version the Fetcher returns is never the empty string: the guard
    [if (!m?.[1])] rejects it. *)
Lemma lookupLatestVersionInternal_truthy ty pv o v :
  lookupLatestVersionInternal ty pv o = Ok v -> truthy v = true.
Proof.
  unfold lookupLatestVersionInternal. destruct o as [e|href]; [discriminate|].
  destruct (negb (truthy href)); [discriminate|].
  destruct (regex_match href) as [w|]; [|discriminate].
  destruct (truthy w) eqn:Hw; [|discriminate]. by intros [= <-].
Qed.

Lemma pageSucceeds_Ok ty pv o v :
  lookupLatestVersionInternal ty pv o = Ok v -> pageSucceeds o = true.
Proof.
  unfold pageSucceeds, lookupLatestVersionInternal.
  destruct o as [e|href]; [discriminate|].
  destruct (negb (truthy href)); [discriminate|].
  destruct (regex_match href) as [w|]; [|discriminate].
  by destruct (truthy w).
Qed.

(** ** Reading the store *)

Lemma entryOf_Some s key e :
  entryOf s key = Some e <->
  exists l, versionCache s !! key = Some l /\ heap s !! l = Some e.
Proof.
  unfold entryOf. destruct (versionCache s !! key) as [l|]; simpl.
  - split; [eauto|]. by intros (l' & [= <-] & ?).
  - split; [discriminate|]. by intros (l' & ? & ?).
Qed.

Lemma getCachedVersion_Some s ty pv v :
  getCachedVersion s ty pv = Some v <->
  exists e, entryOf s (getCacheKey ty pv) = Some e /\ version e = v.
Proof.
  unfold getCachedVersion. destruct (entryOf s (getCacheKey ty pv)) as [e|].
  - split; [intros [= <-]; eauto|]. by intros (e' & [= <-] & <-).
  - split; [discriminate|]. by intros (e' & ? & ?).
Qed.

Lemma getCachedVersion_None s ty pv :
  getCachedVersion s ty pv = None <-> entryOf s (getCacheKey ty pv) = None.
Proof.
  unfold getCachedVersion. by destruct (entryOf s (getCacheKey ty pv)).
Qed.

(** ** Well-formed states *)

Lemma WF_initial : WF initial.
Proof.
  split; simpl; intros *; try (rewrite lookup_empty; discriminate);
    try (rewrite lookup_nil; discriminate).
Qed.

Lemma WF_set_now t s : WF s -> WF (set_now t s).
Proof. intros [? ? ? ? ? ?]. by split. Qed.

Lemma WF_set_initPending p s : WF s -> WF (set_initPending p s).
Proof. intros [? ? ? ? ? ?]. by split. Qed.

Lemma WF_invokeFetcher ty pv s : WF s -> WF (invokeFetcher ty pv s).
Proof.
  intros [H1 H2 H3 H4 H5 H6]. split; simpl; auto.
  - intros id t Ht. apply elem_of_app. left. eauto.
  - intros key l Hl. destruct (H6 key l Hl) as (ty' & pv' & -> & Hin).
    exists ty', pv'. split; [done|]. apply elem_of_app. by left.
Qed.

Lemma lookup_snoc_Some {A} (l : list A) (x y : A) (i : nat) :
  (l ++ [x])%list !! i = Some y -> l !! i = Some y \/ (i = length l /\ y = x).
Proof.
  rewrite lookup_app_Some. intros [H | [Hle H]]; [by left|right].
  destruct (i - length l)%nat as [|n] eqn:Hn; simpl in H; [|done].
  split; [lia|congruence].
Qed.

Lemma WF_suspend t s :
  WF s ->
  task_key t ∈ fetchLog s ->
  (forall ty pv l, t = Refresh ty pv (Some l) ->
     (l < length (heap s))%nat /\
     forall key, versionCache s !! key = Some l -> key = getCacheKey ty pv) ->
  WF (suspend t s).
Proof.
  intros [H1 H2 H3 H4 H5 H6] Hlog Hcap. split; simpl; auto.
  - intros id ty pv l Hid. apply lookup_snoc_Some in Hid as [Hid | [_ [= Heq]]].
    + eauto.
    + by apply Hcap.
  - intros id t' Hid. apply lookup_snoc_Some in Hid as [Hid | [_ [= ->]]]; eauto.
Qed.

Lemma WF_writeRefreshing entry b s : WF s -> WF (writeRefreshing entry b s).
Proof.
  intros [H1 H2 H3 H4 H5 H6]. destruct entry as [l|]; [|by split].
  split; simpl; auto.
  - intros key l' Hl'. rewrite length_alter. eauto.
  - intros l' e. rewrite list_lookup_alter. case_decide as Hd.
    + subst l'. destruct (heap s !! l) as [e0|] eqn:He0; simpl; [|done].
      intros [= <-]. simpl. eauto.
    + eauto.
  - intros id ty pv l' Hid. rewrite length_alter. eauto.
Qed.

Lemma WF_setCachedVersion ty pv v s :
  WF s -> truthy v = true -> (ty, pv) ∈ fetchLog s ->
  WF (setCachedVersion ty pv v s).
Proof.
  intros [H1 H2 H3 H4 H5 H6] Hv Hlog. split; simpl.
  - intros key l. rewrite length_app. simpl. rewrite lookup_insert.
    case_decide; [intros [= <-]; lia|]. intros Hl. apply H1 in Hl. lia.
  - intros k1 k2 l. rewrite !lookup_insert.
    repeat case_decide; subst; try done.
    + intros [= <-] Hl. apply H1 in Hl. lia.
    + intros Hl [= <-]. apply H1 in Hl. lia.
    + apply H2.
  - intros l e Hl. apply lookup_snoc_Some in Hl as [Hl | [_ ->]]; eauto.
  - intros id ty' pv' l Hid. destruct (H4 _ _ _ _ Hid) as [Hlt Hown].
    split; [rewrite length_app; simpl; lia|].
    intros key. rewrite lookup_insert. case_decide; [intros [= <-]; lia|]. auto.
  - auto.
  - intros key l. rewrite lookup_insert. case_decide as Hd.
    + intros _. subst key. eauto.
    + apply H6.
Qed.

Lemma lookup_insert_None_Some {A} (l : list (option A)) (i j : nat) (x : A) :
  <[i := None]> l !! j = Some (Some x) -> i <> j /\ l !! j = Some (Some x).
Proof.
  rewrite list_lookup_insert. case_decide as Hd; [discriminate|].
  intros H. split; [|done]. intros ->.
  apply lookup_lt_Some in H. apply Hd. by split.
Qed.

Lemma WF_clear_task id s : WF s -> WF (set_tasks (<[id := None]> (tasks s)) s).
Proof.
  intros [H1 H2 H3 H4 H5 H6]. split; simpl; auto.
  - intros id' ty pv l Hid. apply lookup_insert_None_Some in Hid as [_ Hid]. eauto.
  - intros id' t Hid. apply lookup_insert_None_Some in Hid as [_ Hid]. eauto.
Qed.

Lemma WF_refreshCacheEntry ty pv s : WF s -> WF (refreshCacheEntry ty pv s).
Proof.
  intros Hwf. unfold refreshCacheEntry.
  destruct (readRefreshing _ s); [done|].
  apply WF_suspend.
  - by apply WF_invokeFetcher, WF_writeRefreshing.
  - simpl. apply elem_of_app. right. by apply list_elem_of_singleton.
  - intros ty' pv' l [= <- <- Hl].
    assert (Hvc : versionCache (invokeFetcher ty pv (writeRefreshing
               (versionCache s !! getCacheKey ty pv) true s)) = versionCache s).
    { by destruct (versionCache s !! getCacheKey ty pv). }
    assert (Hlen : length (heap (invokeFetcher ty pv (writeRefreshing
               (versionCache s !! getCacheKey ty pv) true s))) = length (heap s)).
    { destruct (versionCache s !! getCacheKey ty pv); simpl; [|done].
      by rewrite length_alter. }
    rewrite Hvc, Hlen. split.
    + eapply wf_addr; eauto.
    + intros key Hkey. eapply wf_inj; eauto.
Qed.

Lemma WF_checkAndRefreshCache ty pv s : WF s -> WF (checkAndRefreshCache ty pv s).
Proof.
  intros Hwf. unfold checkAndRefreshCache.
  destruct (entryOf s _) as [e|]; [destruct (negb _)|];
    auto using WF_refreshCacheEntry.
Qed.

Lemma WF_lookupLatestVersion ty pv s :
  WF s -> WF (fst (lookupLatestVersion ty pv s)).
Proof.
  intros Hwf.
  assert (Hmiss : WF (suspend (Miss ty pv) (invokeFetcher ty pv s))).
  { apply WF_suspend; [by apply WF_invokeFetcher| |discriminate].
    simpl. apply elem_of_app. right. by apply list_elem_of_singleton. }
  unfold lookupLatestVersion.
  destruct (getCachedVersion s ty pv) as [v|]; [|done].
  destruct (truthy v); [|done]. by apply WF_checkAndRefreshCache.
Qed.

Lemma WF_initializeCache s : WF s -> WF (initializeCache s).
Proof.
  intros Hwf. unfold initializeCache. simpl.
  repeat (apply WF_suspend;
          [apply WF_invokeFetcher
          |simpl; apply elem_of_app; right; by apply list_elem_of_singleton
          |discriminate]).
  by apply WF_set_initPending.
Qed.

Lemma WF_promiseAll_settle g r s : WF s -> WF (fst (promiseAll_settle g r s)).
Proof.
  intros Hwf. unfold promiseAll_settle. destruct r; [|done].
  destruct (initPending s !! g) as [[|n]|]; simpl; auto using WF_set_initPending.
Qed.

Lemma WF_settle id o s : WF s -> WF (fst (settle id o s)).
Proof.
  intros Hwf. unfold settle.
  destruct (tasks s !! id) as [[t|]|] eqn:Ht; [|done|done].
  pose proof (wf_logged_task s Hwf id t Ht) as Hlog.
  pose proof (WF_clear_task id s Hwf) as Hwf0.
  destruct t as [ty pv|ty pv entry|ty pv g]; simpl in Hlog.
  - unfold lookupLatestVersion_resume.
    destruct (lookupLatestVersionInternal ty pv o) as [v|e] eqn:Hr; simpl; [|done].
    apply WF_setCachedVersion; eauto using lookupLatestVersionInternal_truthy.
  - simpl. unfold refreshCacheEntry_resume.
    destruct (lookupLatestVersionInternal ty pv o) as [v|e] eqn:Hr.
    + apply WF_setCachedVersion; eauto using lookupLatestVersionInternal_truthy.
    + by apply WF_writeRefreshing.
  - unfold initCallback_resume.
    destruct (lookupLatestVersionInternal ty pv o) as [v|e] eqn:Hr.
    + apply WF_promiseAll_settle, WF_setCachedVersion;
        eauto using lookupLatestVersionInternal_truthy.
    + by apply WF_promiseAll_settle.
Qed.

Lemma WF_step s ev : WF s -> WF (fst (step s ev)).
Proof.
  intros Hwf. destruct ev; simpl;
    auto using WF_set_now, WF_lookupLatestVersion, WF_checkAndRefreshCache,
      WF_initializeCache, WF_settle.
Qed.

Lemma reachable_WF s : reachable s -> WF s.
Proof. induction 1; auto using WF_initial, WF_step. Qed.

Lemma exec_cons s ev evs : exec s (ev :: evs) = exec (fst (step s ev)) evs.
Proof.
  unfold exec. cbn [run]. destruct (step s ev) as [s1 o]. cbn [fst].
  by destruct (run s1 evs).
Qed.

Lemma reachable_exec s evs : reachable s -> reachable (exec s evs).
Proof.
  revert s. induction evs as [|ev evs IH]; intros s Hs; [done|].
  rewrite exec_cons. apply IH. by constructor.
Qed.

(** ** Freshness *)

(** C6.  An entry is fresh exactly when [now - fetchedAt < TTL]; the TTL is
    the constant 21600000 ms (6 hours); freshness depends on nothing in the
    entry but its timestamp, and on nothing in the state but the clock. *)
Theorem isCacheValid_spec :
  CACHE_DURATION_MS = 21600000 /\
  CACHE_DURATION_MS = 6 * 3600 * 1000 /\
  (forall s entry,
     isCacheValid s entry = true <-> now s - timestamp entry < CACHE_DURATION_MS) /\
  (forall s s' entry entry',
     now s = now s' -> timestamp entry = timestamp entry' ->
     isCacheValid s entry = isCacheValid s' entry').
Proof.
  repeat split.
  - unfold isCacheValid. by intros H%Z.ltb_lt.
  - unfold isCacheValid. by intros H%Z.ltb_lt.
  - intros s s' entry entry' Hn Ht. unfold isCacheValid. by rewrite Hn, Ht.
Qed.

Lemma isCacheValid_false s entry :
  isCacheValid s entry = false <-> CACHE_DURATION_MS <= now s - timestamp entry.
Proof. unfold isCacheValid. by rewrite Z.ltb_ge. Qed.

(** ** [parsePreviewParam] *)

Lemma N_of_ascii_lt c : (N_of_ascii c < 256)%N.
Proof. apply N_ascii_bounded. Qed.

Lemma lower_ascii_spec a b :
  is_upper b = false ->
  lower_ascii a = b <-> eq_ignore_case_ascii a b = true.
Proof.
  intros Hb. unfold lower_ascii, eq_ignore_case_ascii. rewrite Hb.
  destruct (is_upper a) eqn:Ha; simpl; rewrite orb_false_r.
  - assert (Hrange : (65 <= N_of_ascii a <= 90)%N).
    { unfold is_upper in Ha. apply andb_true_iff in Ha as [H1 H2].
      apply N.leb_le in H1, H2. lia. }
    split.
    + intros <-. apply orb_true_iff. right. apply N.eqb_eq.
      apply N_ascii_embedding. lia.
    + intros [Heq | Heq]%orb_true_iff.
      * apply Ascii.eqb_eq in Heq. subst b. congruence.
      * apply N.eqb_eq in Heq. rewrite <- Heq. apply ascii_N_embedding.
  - rewrite orb_false_r. by rewrite Ascii.eqb_eq.
Qed.

Lemma toLowerCase_spec s t :
  no_upper t = true ->
  toLowerCase s = t <-> eq_ignore_case s t = true.
Proof.
  revert t. induction s as [|a s IH]; intros [|b t] Ht; simpl; try done.
  simpl in Ht. apply andb_true_iff in Ht as [Hb Ht].
  apply negb_true_iff in Hb. rewrite andb_true_iff.
  rewrite <- (IH t Ht), <- (lower_ascii_spec a b Hb).
  split; [by intros [= <- <-]|by intros [<- <-]].
Qed.

Lemma eq_ignore_case_digit s (d : ascii) :
  is_upper d = false -> (N_of_ascii d < 65)%N ->
  eq_ignore_case s (String d EmptyString) = true <-> s = String d EmptyString.
Proof.
  intros Hd Hlt. destruct s as [|a [|a' s]]; simpl; try done.
  - rewrite andb_true_r. unfold eq_ignore_case_ascii. rewrite Hd. simpl.
    rewrite orb_false_r. split.
    + intros [Heq | Heq]%orb_true_iff.
      * apply Ascii.eqb_eq in Heq. by subst.
      * apply andb_true_iff in Heq as [Ha Heq]. apply N.eqb_eq in Heq.
        unfold is_upper in Ha. apply andb_true_iff in Ha as [H1 _].
        apply N.leb_le in H1. lia.
    + intros [= ->]. by rewrite Ascii.eqb_refl.
  - rewrite andb_false_r. split; [done|discriminate].
Qed.

Lemma eq_ignore_case_length s t :
  eq_ignore_case s t = true -> String.length s = String.length t.
Proof.
  revert t. induction s as [|a s IH]; intros [|b t]; simpl; try done.
  intros [_ H]%andb_true_iff. f_equal. by apply IH.
Qed.

(** C10.  [parsePreviewParam] is a total function; it answers [true] exactly
    on the spellings of "true" in any mix of cases and on "1", [false]
    exactly on the spellings of "false" in any mix of cases and on "0", and
    [null] on every other string. *)
Theorem parsePreviewParam_spec (preview : string) :
  (parsePreviewParam preview = Some true <->
     eq_ignore_case preview "true" = true \/ preview = "1") /\
  (parsePreviewParam preview = Some false <->
     eq_ignore_case preview "false" = true \/ preview = "0") /\
  (parsePreviewParam preview = None <->
     eq_ignore_case preview "true" = false /\ preview <> "1" /\
     eq_ignore_case preview "false" = false /\ preview <> "0").
Proof.
  assert (Ht : String.eqb (toLowerCase preview) "true" = true
               <-> eq_ignore_case preview "true" = true).
  { rewrite String.eqb_eq. by apply toLowerCase_spec. }
  assert (Hf : String.eqb (toLowerCase preview) "false" = true
               <-> eq_ignore_case preview "false" = true).
  { rewrite String.eqb_eq. by apply toLowerCase_spec. }
  assert (H1 : String.eqb (toLowerCase preview) "1" = true <-> preview = "1").
  { rewrite String.eqb_eq, toLowerCase_spec by done.
    by apply eq_ignore_case_digit; [|vm_compute]. }
  assert (H0 : String.eqb (toLowerCase preview) "0" = true <-> preview = "0").
  { rewrite String.eqb_eq, toLowerCase_spec by done.
    by apply eq_ignore_case_digit; [|vm_compute]. }
  assert (Hex : (eq_ignore_case preview "true" = true \/ preview = "1") ->
                (eq_ignore_case preview "false" = true \/ preview = "0") -> False).
  { intros [Ha%eq_ignore_case_length | ->] [Hb%eq_ignore_case_length | Hb];
      simpl in *; try congruence; subst; discriminate. }
  unfold parsePreviewParam. cbv zeta.
  destruct (String.eqb (toLowerCase preview) "true") eqn:Et;
    destruct (String.eqb (toLowerCase preview) "1") eqn:E1;
    destruct (String.eqb (toLowerCase preview) "false") eqn:Ef;
    destruct (String.eqb (toLowerCase preview) "0") eqn:E0;
    simpl;
    destruct (eq_ignore_case preview "true") eqn:Bt;
    destruct (eq_ignore_case preview "false") eqn:Bf;
    try (destruct Ht as [Ht Ht']; (discriminate (Ht eq_refl) || discriminate (Ht' eq_refl)));
    try (destruct Hf as [Hf Hf']; (discriminate (Hf eq_refl) || discriminate (Hf' eq_refl)));
    repeat split; try done; try tauto; intros; exfalso; intuition (try discriminate; eauto).
Qed.

(** ** What each operation does to the entries *)

Lemma same_data_refl o : same_data o o.
Proof. by destruct o. Qed.

Lemma same_data_trans o1 o2 o3 :
  same_data o1 o2 -> same_data o2 o3 -> same_data o1 o3.
Proof.
  destruct o1, o2, o3; simpl; try done. intros [-> ->] [-> ->]. done.
Qed.

Lemma same_data_version s s' ty pv :
  same_data (entryOf s (getCacheKey ty pv)) (entryOf s' (getCacheKey ty pv)) ->
  getCachedVersion s' ty pv = getCachedVersion s ty pv.
Proof.
  unfold getCachedVersion.
  destruct (entryOf s _), (entryOf s' _); simpl; try done. by intros [-> _].
Qed.

Lemma entryOf_writeRefreshing entry b s key :
  entryOf (writeRefreshing entry b s) key =
  (fun e => if decide (versionCache s !! key = entry)
            then with_refreshing b e else e) <$> entryOf s key.
Proof.
  unfold entryOf, writeRefreshing.
  destruct entry as [l0|]; simpl.
  - destruct (versionCache s !! key) as [l|] eqn:Hl; simpl; [|done].
    destruct (decide (l0 = l)) as [->|Hd].
    + rewrite list_lookup_alter_eq.
      destruct (heap s !! l); simpl; [|done]. by rewrite decide_True.
    + rewrite list_lookup_alter_ne by done.
      destruct (heap s !! l); simpl; [|done]. by rewrite decide_False by congruence.
  - destruct (versionCache s !! key) as [l|]; simpl; [|done].
    by destruct (heap s !! l).
Qed.

Lemma same_data_writeRefreshing entry b s key :
  same_data (entryOf s key) (entryOf (writeRefreshing entry b s) key).
Proof.
  rewrite entryOf_writeRefreshing. destruct (entryOf s key) as [e|]; simpl; [|done].
  by case_decide.
Qed.

Lemma entryOf_setCachedVersion_eq ty pv v s :
  entryOf (setCachedVersion ty pv v s) (getCacheKey ty pv)
  = Some (mkEntry v (now s) false).
Proof.
  unfold entryOf, setCachedVersion. simpl. rewrite lookup_insert_eq. simpl.
  rewrite lookup_app_r by done. by rewrite Nat.sub_diag.
Qed.

Lemma entryOf_setCachedVersion_ne ty pv v s key :
  WF s -> key <> getCacheKey ty pv ->
  entryOf (setCachedVersion ty pv v s) key = entryOf s key.
Proof.
  intros Hwf Hne. unfold entryOf, setCachedVersion. simpl.
  rewrite lookup_insert_ne by done.
  destruct (versionCache s !! key) as [l|] eqn:Hl; simpl; [|done].
  apply lookup_app_l. eapply wf_addr; eauto.
Qed.

Lemma getCachedVersion_setCachedVersion ty pv v s :
  getCachedVersion (setCachedVersion ty pv v s) ty pv = Some v.
Proof. unfold getCachedVersion. by rewrite entryOf_setCachedVersion_eq. Qed.

Lemma refreshCacheEntry_cases ty pv s :
  let entry := versionCache s !! getCacheKey ty pv in
  (readRefreshing entry s = true /\ refreshCacheEntry ty pv s = s) \/
  (readRefreshing entry s = false /\
   refreshCacheEntry ty pv s =
     suspend (Refresh ty pv entry)
       (invokeFetcher ty pv (writeRefreshing entry true s))).
Proof.
  unfold refreshCacheEntry. cbv zeta.
  destruct (readRefreshing _ s); [left|right]; done.
Qed.

Lemma same_data_refreshCacheEntry ty pv s key :
  same_data (entryOf s key) (entryOf (refreshCacheEntry ty pv s) key).
Proof.
  destruct (refreshCacheEntry_cases ty pv s) as [[_ ->] | [_ ->]].
  - apply same_data_refl.
  - apply (same_data_writeRefreshing _ true s key).
Qed.

Lemma same_data_checkAndRefreshCache ty pv s key :
  same_data (entryOf s key) (entryOf (checkAndRefreshCache ty pv s) key).
Proof.
  unfold checkAndRefreshCache.
  destruct (entryOf s (getCacheKey ty pv)) as [e|]; [destruct (negb _)|];
    auto using same_data_refreshCacheEntry, same_data_refl.
Qed.

Lemma same_data_lookupLatestVersion ty pv s key :
  same_data (entryOf s key) (entryOf (fst (lookupLatestVersion ty pv s)) key).
Proof.
  unfold lookupLatestVersion.
  destruct (getCachedVersion s ty pv) as [v|]; [destruct (truthy v)|]; simpl;
    auto using same_data_checkAndRefreshCache, same_data_refl.
Qed.

Lemma entryOf_promiseAll_settle g r s key :
  entryOf (fst (promiseAll_settle g r s)) key = entryOf s key.
Proof.
  unfold promiseAll_settle. destruct r; [|done].
  by destruct (initPending s !! g) as [[|n]|].
Qed.

Lemma settle_data id o s key :
  WF s ->
  same_data (entryOf s key) (entryOf (fst (settle id o s)) key) \/
  exists e', entryOf (fst (settle id o s)) key = Some e' /\ writes s (EvSettle id o) key e'.
Proof.
  intros Hwf. unfold settle.
  destruct (tasks s !! id) as [[t|]|] eqn:Ht; [|left; apply same_data_refl..].
  pose proof (WF_clear_task id s Hwf) as Hwf0.
  set (s0 := set_tasks (<[id:=None]> (tasks s)) s) in *.
  assert (Hset : forall ty pv v, task_key t = (ty, pv) ->
            lookupLatestVersionInternal ty pv o = Ok v ->
            same_data (entryOf s key) (entryOf (setCachedVersion ty pv v s0) key) \/
            exists e', entryOf (setCachedVersion ty pv v s0) key = Some e' /\
                       writes s (EvSettle id o) key e').
  { intros ty pv v Hk Hr. destruct (decide (key = getCacheKey ty pv)) as [->|Hne].
    - right. rewrite entryOf_setCachedVersion_eq. eexists. split; [done|].
      exists id, o, t. rewrite Hk. simpl. by repeat split.
    - left. rewrite entryOf_setCachedVersion_ne by done. apply same_data_refl. }
  destruct t as [ty pv|ty pv entry|ty pv g].
  - unfold lookupLatestVersion_resume.
    destruct (lookupLatestVersionInternal ty pv o) as [v|e] eqn:Hr; simpl.
    + by apply Hset.
    + left. apply same_data_refl.
  - simpl. unfold refreshCacheEntry_resume.
    destruct (lookupLatestVersionInternal ty pv o) as [v|e] eqn:Hr.
    + by apply Hset.
    + left. apply (same_data_writeRefreshing entry false s0 key).
  - unfold initCallback_resume.
    destruct (lookupLatestVersionInternal ty pv o) as [v|e] eqn:Hr;
      rewrite entryOf_promiseAll_settle.
    + by apply Hset.
    + left. apply same_data_refl.
Qed.

Lemma step_data s ev key :
  WF s ->
  same_data (entryOf s key) (entryOf (fst (step s ev)) key) \/
  exists e', entryOf (fst (step s ev)) key = Some e' /\ writes s ev key e'.
Proof.
  intros Hwf. destruct ev; simpl;
    auto using same_data_refl, same_data_lookupLatestVersion,
      same_data_checkAndRefreshCache, settle_data.
Qed.

(** C9.  In every reachable state and for every event: an entry that exists
    still exists afterwards, and an entry found afterwards either has the
    version and timestamp it had before, or was written (created or
    replaced) by the resumption of a suspended call for that key -- the miss
    path of a lookup, a background refresh or a warm-up callback -- with the
    version its Fetcher call returned, stamped with the current time. *)
Theorem entry_lifecycle s ev (key : string) :
  reachable s ->
  let s' := fst (step s ev) in
  (is_Some (entryOf s key) -> is_Some (entryOf s' key)) /\
  (forall e', entryOf s' key = Some e' ->
     (exists e, entryOf s key = Some e /\
                version e' = version e /\ timestamp e' = timestamp e) \/
     (exists id o t,
        ev = EvSettle id o /\ inFlight s id t /\
        key = getCacheKey (task_key t).1 (task_key t).2 /\
        lookupLatestVersionInternal (task_key t).1 (task_key t).2 o = Ok (version e') /\
        timestamp e' = now s /\ refreshing e' = false)).
Proof.
  intros Hr s'. subst s'. pose proof (reachable_WF s Hr) as Hwf.
  destruct (step_data s ev key Hwf) as [Hsame | (e1 & He1 & Hw)].
  - split.
    + intros [e He]. rewrite He in Hsame.
      destruct (entryOf (fst (step s ev)) key) as [e'|] eqn:He'; [eauto|done].
    + intros e' He'. left. rewrite He' in Hsame.
      destruct (entryOf s key) as [e|]; [|done]. eauto.
  - split; [rewrite He1; eauto|].
    intros e' He'. right. rewrite He1 in He'. injection He' as <-. exact Hw.
Qed.

(** ** Lookups *)

Lemma reachable_truthy s key e :
  reachable s -> entryOf s key = Some e -> truthy (version e) = true.
Proof.
  intros Hr (l & _ & Hl)%entryOf_Some.
  eapply wf_truthy; eauto using reachable_WF.
Qed.

Lemma lookupLatestVersion_hit s ty pv e :
  entryOf s (getCacheKey ty pv) = Some e -> truthy (version e) = true ->
  lookupLatestVersion ty pv s
  = (checkAndRefreshCache ty pv s, OutLookup (Ok (version e))).
Proof.
  intros He Hv. unfold lookupLatestVersion, getCachedVersion. by rewrite He, Hv.
Qed.

Lemma lookupLatestVersion_miss s ty pv :
  entryOf s (getCacheKey ty pv) = None ->
  lookupLatestVersion ty pv s
  = (suspend (Miss ty pv) (invokeFetcher ty pv s), OutNone).
Proof.
  intros He. unfold lookupLatestVersion, getCachedVersion. by rewrite He.
Qed.

(** C3.  A lookup of a key whose entry is fresh answers with the stored
    version and leaves the whole state as it was: the Fetcher log does not
    grow and no call is suspended, so the Fetcher is invoked neither
    synchronously nor in the background. *)
Theorem lookup_fresh s ty pv entry :
  reachable s ->
  entryOf s (getCacheKey ty pv) = Some entry ->
  now s - timestamp entry < CACHE_DURATION_MS ->
  step s (EvLookup ty pv) = (s, OutLookup (Ok (version entry))) /\
  fetchLog (fst (step s (EvLookup ty pv))) = fetchLog s /\
  tasks (fst (step s (EvLookup ty pv))) = tasks s.
Proof.
  intros Hr He Hfresh.
  assert (Hstep : step s (EvLookup ty pv) = (s, OutLookup (Ok (version entry)))).
  { simpl. rewrite (lookupLatestVersion_hit s ty pv entry He)
      by eauto using reachable_truthy.
    unfold checkAndRefreshCache. rewrite He.
    assert (isCacheValid s entry = true) as -> by (by apply Z.ltb_lt).
    done. }
  by rewrite Hstep.
Qed.

Lemma tasks_refreshCacheEntry ty pv s :
  tasks (refreshCacheEntry ty pv s) = tasks s \/
  tasks (refreshCacheEntry ty pv s)
  = (tasks s ++ [Some (Refresh ty pv (versionCache s !! getCacheKey ty pv))])%list.
Proof.
  destruct (refreshCacheEntry_cases ty pv s) as [[_ ->] | [_ ->]]; [by left|right].
  simpl. by destruct (versionCache s !! getCacheKey ty pv).
Qed.

Lemma tasks_checkAndRefreshCache ty pv s :
  tasks (checkAndRefreshCache ty pv s) = tasks s \/
  tasks (checkAndRefreshCache ty pv s)
  = (tasks s ++ [Some (Refresh ty pv (versionCache s !! getCacheKey ty pv))])%list.
Proof.
  unfold checkAndRefreshCache.
  destruct (entryOf s _) as [e|]; [destruct (negb _)|];
    auto using tasks_refreshCacheEntry.
Qed.

Lemma tasks_promiseAll_settle g r s :
  tasks (fst (promiseAll_settle g r s)) = tasks s.
Proof.
  unfold promiseAll_settle. destruct r; [|done].
  by destruct (initPending s !! g) as [[|n]|].
Qed.

Lemma tasks_settle id o s :
  tasks (fst (settle id o s)) = tasks s \/
  tasks (fst (settle id o s)) = <[id := None]> (tasks s).
Proof.
  unfold settle. destruct (tasks s !! id) as [[t|]|]; [|by left..]. right.
  destruct t as [ty pv|ty pv entry|ty pv g].
  - unfold lookupLatestVersion_resume. by destruct (lookupLatestVersionInternal _ _ _).
  - simpl. unfold refreshCacheEntry_resume.
    destruct (lookupLatestVersionInternal _ _ _); [done|]. by destruct entry.
  - unfold initCallback_resume.
    destruct (lookupLatestVersionInternal _ _ _); by rewrite tasks_promiseAll_settle.
Qed.

(** C1.  In every reachable state:
    - an event yields a failed lookup only when it resumes a lookup that was
      suspended on its synchronous Fetcher call and that call failed;
    - a lookup is suspended on a Fetcher call only when it was issued for a
      key without a cached version;
    - a lookup of a key with a cached version answers with that version at
      once;
    - the settling of a background refresh or of a warm-up callback yields
      no lookup result at all, whatever the Fetcher did. *)
Theorem lookup_failure_only_on_miss s ev :
  reachable s ->
  (forall msg, snd (step s ev) = OutLookup (Err msg) ->
     exists id o ty pv,
       ev = EvSettle id o /\ inFlight s id (Miss ty pv) /\
       lookupLatestVersionInternal ty pv o = Err msg) /\
  (forall id ty pv,
     inFlight (fst (step s ev)) id (Miss ty pv) -> ~ inFlight s id (Miss ty pv) ->
     ev = EvLookup ty pv /\ getCachedVersion s ty pv = None) /\
  (forall ty pv v,
     ev = EvLookup ty pv -> getCachedVersion s ty pv = Some v ->
     snd (step s ev) = OutLookup (Ok v)) /\
  (forall id o t,
     ev = EvSettle id o -> inFlight s id t ->
     (forall ty pv, t <> Miss ty pv) ->
     forall r, snd (step s ev) <> OutLookup r).
Proof.
  intros Hr. pose proof (reachable_WF s Hr) as Hwf.
  split; [|split; [|split]].
  - intros msg Hout. destruct ev as [t|ty pv|ty pv| | |id o]; simpl in Hout;
      try discriminate Hout.
    + unfold lookupLatestVersion in Hout.
      destruct (getCachedVersion s ty pv) as [v|]; [destruct (truthy v)|];
        discriminate Hout.
    + unfold settle in Hout. destruct (tasks s !! id) as [[t|]|] eqn:Ht;
        try discriminate Hout.
      destruct t as [ty pv|ty pv entry|ty pv g]; try discriminate Hout.
      * unfold lookupLatestVersion_resume in Hout.
        destruct (lookupLatestVersionInternal ty pv o) as [v|e] eqn:Hres;
          simpl in Hout; [discriminate Hout|]. injection Hout as ->.
        by exists id, o, ty, pv.
      * unfold initCallback_resume, promiseAll_settle in Hout.
        destruct (lookupLatestVersionInternal ty pv o); simpl in Hout;
          destruct (initPending s !! g) as [[|[|n]]|]; discriminate Hout.
  - intros id ty pv Hnew Hold. unfold inFlight in *.
    destruct ev as [t|ty' pv'|ty' pv'| | |id' o]; simpl in Hnew; try done.
    + unfold lookupLatestVersion in Hnew.
      destruct (getCachedVersion s ty' pv') as [v|] eqn:Hv;
        [destruct (truthy v) eqn:Htv|]; simpl in Hnew.
      * destruct (tasks_checkAndRefreshCache ty' pv' s) as [Heq | Heq];
          rewrite Heq in Hnew; [done|].
        apply lookup_snoc_Some in Hnew as [Hnew | [_ [= ?]]]; done.
      * apply getCachedVersion_Some in Hv as (e & He & <-).
        pose proof (reachable_truthy s _ e Hr He). congruence.
      * apply lookup_snoc_Some in Hnew as [Hnew | [_ [= -> ->]]]; done.
    + destruct (tasks_checkAndRefreshCache ty' pv' s) as [Heq | Heq];
        rewrite Heq in Hnew; [done|].
      apply lookup_snoc_Some in Hnew as [Hnew | [_ [= ?]]]; done.
    + do 4 (apply lookup_snoc_Some in Hnew as [Hnew | [_ [= ?]]]; try done).
    + destruct (tasks_settle id' o s) as [Heq | Heq];
        rewrite Heq in Hnew; [done|].
      apply lookup_insert_None_Some in Hnew as [_ Hnew]. done.
  - intros ty pv v -> Hv. simpl.
    apply getCachedVersion_Some in Hv as (e & He & <-).
    rewrite (lookupLatestVersion_hit s ty pv e He) by eauto using reachable_truthy.
    done.
  - intros id o t -> Ht Hnm r. simpl. unfold settle. unfold inFlight in Ht.
    rewrite Ht. destruct t as [ty pv|ty pv entry|ty pv g].
    + by destruct (Hnm ty pv).
    + done.
    + unfold initCallback_resume, promiseAll_settle.
      destruct (lookupLatestVersionInternal ty pv o); simpl;
        destruct (initPending s !! g) as [[|[|n]]|]; done.
Qed.

Lemma cacheStatus_entry s ty pv :
  In (mkStatusEntry ty pv
        (match getCachedVersion s ty pv with Some _ => true | None => false end)
        (match getCachedVersion s ty pv with
         | Some v => if truthy v then Some v else None
         | None => None
         end))
     (entries (cacheStatus s)).
Proof. destruct ty, pv; simpl; auto. Qed.

Lemma fetchCount_invokeFetcher k ty pv s :
  fetchCount k (invokeFetcher ty pv s)
  = (fetchCount k s + if decide ((ty, pv) = k) then 1 else 0)%nat.
Proof.
  unfold fetchCount, invokeFetcher. simpl. rewrite filter_app, length_app.
  f_equal. case_decide.
  - by rewrite filter_cons_True.
  - by rewrite filter_cons_False.
Qed.

Lemma fetchCount_not_logged k s : k ∉ fetchLog s -> fetchCount k s = 0%nat.
Proof.
  unfold fetchCount. induction (fetchLog s) as [|k' l IH]; [done|].
  intros Hnin. apply not_elem_of_cons in Hnin as [Hne Hnin].
  rewrite filter_cons_False by congruence. by apply IH.
Qed.

Lemma never_fetched_absent s ty pv :
  reachable s -> (ty, pv) ∉ fetchLog s ->
  versionCache s !! getCacheKey ty pv = None /\
  forall id t, inFlight s id t -> task_key t <> (ty, pv).
Proof.
  intros Hr Hnin. pose proof (reachable_WF s Hr) as Hwf. split.
  - destruct (versionCache s !! getCacheKey ty pv) as [l|] eqn:Hl; [|done].
    destruct (wf_logged_entry s Hwf _ _ Hl) as (ty' & pv' & Heq & Hin).
    apply getCacheKey_inj in Heq as [-> ->]. done.
  - intros id t Ht Hk. apply (wf_logged_task s Hwf) in Ht. by rewrite Hk in Ht.
Qed.

(** C2.  A lookup of a key for which the Fetcher was never invoked suspends
    on one Fetcher call (the log grows by that one call, nothing is written)
    and yields nothing yet.  When that call settles -- in whatever state the
    program is by then -- no further Fetcher call is made; if it returned a
    version, the lookup yields it, the cache holds it, and the status
    listing shows the key as cached with that version; if it failed, the
    lookup yields the error and the store is as it was. *)
Theorem lookup_never_fetched s ty pv :
  reachable s ->
  (ty, pv) ∉ fetchLog s ->
  let id := length (tasks s) in
  let s1 := fst (step s (EvLookup ty pv)) in
  snd (step s (EvLookup ty pv)) = OutNone /\
  fetchLog s1 = (fetchLog s ++ [(ty, pv)])%list /\
  fetchCount (ty, pv) s1 = 1%nat /\
  inFlight s1 id (Miss ty pv) /\
  heap s1 = heap s /\ versionCache s1 = versionCache s /\
  forall s2 o,
    inFlight s2 id (Miss ty pv) ->
    let s3 := fst (step s2 (EvSettle id o)) in
    fetchLog s3 = fetchLog s2 /\
    match lookupLatestVersionInternal ty pv o with
    | Ok v =>
        snd (step s2 (EvSettle id o)) = OutLookup (Ok v) /\
        getCachedVersion s3 ty pv = Some v /\
        In (mkStatusEntry ty pv true (Some v)) (entries (cacheStatus s3)) /\
        step s3 EvStatus = (s3, OutStatus (cacheStatus s3))
    | Err msg =>
        snd (step s2 (EvSettle id o)) = OutLookup (Err msg) /\
        heap s3 = heap s2 /\ versionCache s3 = versionCache s2
    end.
Proof.
  intros Hr Hnin id s1. subst id s1.
  destruct (never_fetched_absent s ty pv Hr Hnin) as [Habs _].
  assert (He : entryOf s (getCacheKey ty pv) = None).
  { unfold entryOf. by rewrite Habs. }
  simpl. rewrite (lookupLatestVersion_miss s ty pv He). simpl.
  split; [done|]. split; [done|]. split.
  { change (fetchCount (ty, pv) (invokeFetcher ty pv s) = 1%nat).
    rewrite fetchCount_invokeFetcher, decide_True by done.
    by rewrite fetchCount_not_logged. }
  split.
  { unfold inFlight. simpl. rewrite lookup_app_r by done.
    by rewrite Nat.sub_diag. }
  split; [done|]. split; [done|].
  intros s2 o Hin. unfold inFlight in Hin. unfold settle. rewrite Hin.
  unfold lookupLatestVersion_resume.
  destruct (lookupLatestVersionInternal ty pv o) as [v|msg] eqn:Hres; simpl.
  - split; [done|]. split; [done|].
    set (s3 := setCachedVersion ty pv v _).
    assert (Hv : getCachedVersion s3 ty pv = Some v)
      by apply getCachedVersion_setCachedVersion.
    split; [done|]. split; [|done].
    pose proof (cacheStatus_entry s3 ty pv) as Hst. rewrite Hv in Hst.
    by rewrite (lookupLatestVersionInternal_truthy _ _ _ _ Hres) in Hst.
  - done.
Qed.

(** ** Background refresh *)

Lemma lookup_snoc_length {A} (l : list A) (x : A) :
  (l ++ [x])%list !! length l = Some x.
Proof. rewrite lookup_app_r by done. by rewrite Nat.sub_diag. Qed.

(** A lookup (or a direct refresh trigger) of a key whose entry is stale and
    not being refreshed: the entry is marked, the Fetcher is invoked once,
    and [refreshCacheEntry] is suspended holding that entry. *)
Lemma checkAndRefreshCache_stale s ty pv l entry :
  versionCache s !! getCacheKey ty pv = Some l ->
  heap s !! l = Some entry ->
  refreshing entry = false ->
  CACHE_DURATION_MS <= now s - timestamp entry ->
  checkAndRefreshCache ty pv s
  = suspend (Refresh ty pv (Some l))
      (invokeFetcher ty pv (writeRefreshing (Some l) true s)).
Proof.
  intros Hl He Hflag Hstale. unfold checkAndRefreshCache, entryOf.
  rewrite Hl. simpl. rewrite He.
  assert (isCacheValid s entry = false) as -> by (by apply isCacheValid_false).
  simpl. unfold refreshCacheEntry. rewrite Hl. simpl. by rewrite He, Hflag.
Qed.

(** The same call while the entry is marked: nothing happens. *)
Lemma checkAndRefreshCache_marked s ty pv l entry :
  versionCache s !! getCacheKey ty pv = Some l ->
  heap s !! l = Some entry ->
  refreshing entry = true ->
  checkAndRefreshCache ty pv s = s.
Proof.
  intros Hl He Hflag. unfold checkAndRefreshCache, entryOf.
  rewrite Hl. simpl. rewrite He.
  destruct (negb (isCacheValid s entry)); [|done].
  unfold refreshCacheEntry. rewrite Hl. simpl. by rewrite He, Hflag.
Qed.

Lemma Held_initial : Held initial.
Proof. intros key l e Hl. simpl in Hl. by rewrite lookup_empty in Hl. Qed.

Lemma Held_suspend t s : Held s -> Held (suspend t s).
Proof.
  intros H key l e Hl He Hm. destruct (H key l e Hl He Hm) as (id & ty & pv & Hin).
  exists id, ty, pv. unfold inFlight in *. simpl. by apply lookup_app_l_Some.
Qed.

Lemma Held_refreshCacheEntry ty pv s : Held s -> Held (refreshCacheEntry ty pv s).
Proof.
  intros H. destruct (refreshCacheEntry_cases ty pv s) as [[_ ->] | [_ ->]]; [done|].
  intros key l e Hl He Hm.
  destruct (versionCache s !! getCacheKey ty pv) as [l0|] eqn:Hl0.
  - simpl in Hl, He. destruct (decide (l0 = l)) as [->|Hne].
    + exists (length (tasks s)), ty, pv. unfold inFlight. simpl.
      apply lookup_snoc_length.
    + rewrite list_lookup_alter_ne in He by done.
      destruct (H key l e Hl He Hm) as (id & ty' & pv' & Hin).
      exists id, ty', pv'. unfold inFlight in *. simpl. by apply lookup_app_l_Some.
  - simpl in Hl, He. destruct (H key l e Hl He Hm) as (id & ty' & pv' & Hin).
    exists id, ty', pv'. unfold inFlight in *. simpl. by apply lookup_app_l_Some.
Qed.

Lemma Held_checkAndRefreshCache ty pv s :
  Held s -> Held (checkAndRefreshCache ty pv s).
Proof.
  intros H. unfold checkAndRefreshCache.
  destruct (entryOf s _) as [e|]; [destruct (negb _)|];
    auto using Held_refreshCacheEntry.
Qed.

Lemma Held_lookupLatestVersion ty pv s :
  Held s -> Held (fst (lookupLatestVersion ty pv s)).
Proof.
  intros H. unfold lookupLatestVersion.
  assert (Hmiss : Held (suspend (Miss ty pv) (invokeFetcher ty pv s)))
    by (by apply Held_suspend).
  destruct (getCachedVersion s ty pv) as [v|]; [destruct (truthy v)|]; simpl;
    auto using Held_checkAndRefreshCache.
Qed.

Lemma Held_initializeCache s : Held s -> Held (initializeCache s).
Proof.
  intros H. unfold initializeCache. simpl. by do 4 apply Held_suspend.
Qed.

Lemma Held_promiseAll_settle g r s :
  Held s -> Held (fst (promiseAll_settle g r s)).
Proof.
  intros H. unfold promiseAll_settle. destruct r; [|done].
  by destruct (initPending s !! g) as [[|n]|].
Qed.

Lemma inFlight_clear_task s id id' t :
  id' <> id -> inFlight s id' t ->
  inFlight (set_tasks (<[id := None]> (tasks s)) s) id' t.
Proof.
  intros Hne Hin. unfold inFlight in *. simpl.
  by rewrite list_lookup_insert_ne.
Qed.

(** The resumption writes the version: the key's new entry is unmarked, and
    the entries of other keys keep their holders. *)
Lemma Held_settle_write s id t ty pv v :
  WF s -> Held s -> inFlight s id t -> task_key t = (ty, pv) ->
  Held (setCachedVersion ty pv v (set_tasks (<[id := None]> (tasks s)) s)).
Proof.
  intros Hwf H Hid Hk key l e Hl He Hm. simpl in Hl, He.
  rewrite lookup_insert in Hl. case_decide as Hkey.
  - injection Hl as <-. rewrite lookup_snoc_length in He.
    injection He as <-. discriminate Hm.
  - rewrite lookup_app_l in He by (by eapply wf_addr).
    destruct (H key l e Hl He Hm) as (id' & ty' & pv' & Hin).
    exists id', ty', pv'. apply inFlight_clear_task; [|done]. intros ->.
    destruct (wf_captured s Hwf id ty' pv' l Hin) as [_ Hown].
    unfold inFlight in *. rewrite Hid in Hin. injection Hin as ->.
    simpl in Hk. injection Hk as <- <-. by destruct Hkey; rewrite (Hown key Hl).
Qed.

Lemma Held_settle s id o : WF s -> Held s -> Held (fst (settle id o s)).
Proof.
  intros Hwf H. unfold settle.
  destruct (tasks s !! id) as [[t|]|] eqn:Ht; [|done..].
  assert (Hclear : (forall ty pv held, t <> Refresh ty pv held) ->
            Held (set_tasks (<[id := None]> (tasks s)) s)).
  { intros Hnr key l e Hl He Hm. destruct (H key l e Hl He Hm) as (id' & ty' & pv' & Hin).
    exists id', ty', pv'. apply inFlight_clear_task; [|done]. intros ->.
    unfold inFlight in Hin. rewrite Ht in Hin. injection Hin as ->.
    by destruct (Hnr ty' pv' (Some l)). }
  destruct t as [ty pv|ty pv held|ty pv g].
  - unfold lookupLatestVersion_resume.
    destruct (lookupLatestVersionInternal ty pv o); simpl.
    + by apply (Held_settle_write s id (Miss ty pv)).
    + by apply Hclear.
  - simpl. unfold refreshCacheEntry_resume.
    destruct (lookupLatestVersionInternal ty pv o).
    + by apply (Held_settle_write s id (Refresh ty pv held)).
    + intros key l e Hl He Hm.
      assert (Hne : held <> Some l).
      { intros ->. simpl in He. rewrite list_lookup_alter_eq in He.
        destruct (heap s !! l); simpl in He; [|done].
        injection He as <-. discriminate Hm. }
      assert (He0 : heap s !! l = Some e).
      { destruct held as [l0|]; simpl in He; [|done].
        rewrite list_lookup_alter_ne in He; [done|congruence]. }
      assert (Hl0 : versionCache s !! key = Some l) by (by destruct held).
      destruct (H key l e Hl0 He0 Hm) as (id' & ty' & pv' & Hin).
      exists id', ty', pv'.
      assert (Hin' : inFlight (set_tasks (<[id := None]> (tasks s)) s) id'
                       (Refresh ty' pv' (Some l))).
      { apply inFlight_clear_task; [|done]. intros ->.
        unfold inFlight in Hin. rewrite Ht in Hin. by injection Hin as -> -> ->. }
      by destruct held.
  - unfold initCallback_resume.
    destruct (lookupLatestVersionInternal ty pv o); apply Held_promiseAll_settle.
    + by apply (Held_settle_write s id (Warm ty pv g)).
    + by apply Hclear.
Qed.

Lemma Held_step s ev : WF s -> Held s -> Held (fst (step s ev)).
Proof.
  intros Hwf H. destruct ev; simpl;
    auto using Held_lookupLatestVersion, Held_checkAndRefreshCache,
      Held_initializeCache, Held_settle.
Qed.

Lemma reachable_Held s : reachable s -> Held s.
Proof.
  induction 1; auto using Held_initial, Held_step, reachable_WF.
Qed.

(** C5, as the code has it.  Let a key have a cached entry, let a background
    refresh of that key be in flight, and let its Fetcher call fail.  The
    failure yields nothing to any caller and invokes no Fetcher; the key
    still maps to the same entry, with the version and timestamp it had;
    that version is still what [getCachedVersion], the status listing and
    every later lookup report; the entry the refresh holds has its flag
    cleared.  When the refresh holds the key's cached entry, or when it is
    the only refresh of the key in flight, the cached entry is unmarked
    afterwards and the next lookup that finds it stale invokes the Fetcher
    exactly once, suspending a new refresh of that entry. *)
Theorem refresh_failure_keeps_entry s ty pv id held l entry o msg :
  reachable s ->
  versionCache s !! getCacheKey ty pv = Some l ->
  heap s !! l = Some entry ->
  inFlight s id (Refresh ty pv held) ->
  lookupLatestVersionInternal ty pv o = Err msg ->
  let s1 := fst (step s (EvSettle id o)) in
  snd (step s (EvSettle id o)) = OutNone /\
  fetchLog s1 = fetchLog s /\
  versionCache s1 !! getCacheKey ty pv = Some l /\
  (exists entry1,
     heap s1 !! l = Some entry1 /\
     version entry1 = version entry /\ timestamp entry1 = timestamp entry) /\
  getCachedVersion s1 ty pv = Some (version entry) /\
  In (mkStatusEntry ty pv true (Some (version entry))) (entries (cacheStatus s1)) /\
  (forall t,
     snd (step (fst (step s1 (EvClock t))) (EvLookup ty pv))
     = OutLookup (Ok (version entry))) /\
  (forall l', held = Some l' -> readRefreshing (Some l') s1 = false) /\
  (held = Some l \/
   (forall id' held', inFlight s id' (Refresh ty pv held') -> id' = id) ->
   entryOf s1 (getCacheKey ty pv)
     = Some (mkEntry (version entry) (timestamp entry) false) /\
   forall t,
     let s2 := fst (step s1 (EvClock t)) in
     CACHE_DURATION_MS <= t - timestamp entry ->
     fetchLog (fst (step s2 (EvLookup ty pv))) = (fetchLog s1 ++ [(ty, pv)])%list /\
     fetchCount (ty, pv) (fst (step s2 (EvLookup ty pv)))
       = S (fetchCount (ty, pv) s1) /\
     inFlight (fst (step s2 (EvLookup ty pv))) (length (tasks s1))
       (Refresh ty pv (Some l))).
Proof.
  intros Hr Hl He Hin Hres s1. subst s1.
  pose proof (reachable_WF s Hr) as Hwf.
  pose proof (wf_truthy s Hwf l entry He) as Hv.
  unfold inFlight in Hin.
  assert (Hunmarked :
            (forall id' held', inFlight s id' (Refresh ty pv held') -> id' = id) ->
            held <> Some l -> refreshing entry = false).
  { intros Honly Hne. destruct (refreshing entry) eqn:Hm; [exfalso|done].
    destruct (reachable_Held s Hr _ l entry Hl He Hm) as (id' & ty' & pv' & Hin').
    destruct (wf_captured s Hwf id' ty' pv' l Hin') as [_ Hown].
    pose proof (Hown _ Hl) as Hk. apply getCacheKey_inj in Hk as [<- <-].
    pose proof (Honly id' (Some l) Hin') as ->.
    unfold inFlight in Hin'. rewrite Hin in Hin'. by injection Hin' as ->. }
  simpl. unfold settle. rewrite Hin. simpl.
  unfold refreshCacheEntry_resume. rewrite Hres.
  set (s0 := set_tasks (<[id:=None]> (tasks s)) s).
  set (s1 := writeRefreshing held false s0).
  assert (Hl1 : versionCache s1 !! getCacheKey ty pv = Some l).
  { unfold s1. by destruct held. }
  assert (Hsame : held <> Some l -> heap s1 !! l = Some entry).
  { intros Hne. unfold s1. destruct held as [l'|]; simpl; [|done].
    rewrite list_lookup_alter_ne; [done|congruence]. }
  assert (Hh1 : exists entry1, heap s1 !! l = Some entry1 /\
            version entry1 = version entry /\ timestamp entry1 = timestamp entry /\
            (held = Some l \/
             (forall id' held', inFlight s id' (Refresh ty pv held') -> id' = id) ->
             entry1 = mkEntry (version entry) (timestamp entry) false)).
  { destruct (decide (held = Some l)) as [->|Hne].
    - exists (mkEntry (version entry) (timestamp entry) false).
      split; [|done]. unfold s1. simpl. rewrite list_lookup_alter_eq. by rewrite He.
    - exists entry. split; [by apply Hsame|]. split; [done|]. split; [done|].
      intros [Heq | Honly]; [done|].
      pose proof (Hunmarked Honly Hne) as Hflag.
      destruct entry as [v ts r]. simpl in *. by subst r. }
  destruct Hh1 as (entry1 & Hh1 & Hv1 & Ht1 & Hheld).
  assert (He1 : entryOf s1 (getCacheKey ty pv) = Some entry1).
  { apply entryOf_Some. eauto. }
  assert (Hg1 : getCachedVersion s1 ty pv = Some (version entry)).
  { apply getCachedVersion_Some. eauto. }
  assert (Hfl : fetchLog s1 = fetchLog s) by (unfold s1; by destruct held).
  split; [done|]. split; [done|]. split; [done|].
  split; [by exists entry1|]. split; [done|]. split.
  { pose proof (cacheStatus_entry s1 ty pv) as Hst. rewrite Hg1 in Hst.
    by rewrite Hv in Hst. }
  assert (Hhit : forall t,
            lookupLatestVersion ty pv (set_now t s1)
            = (checkAndRefreshCache ty pv (set_now t s1),
               OutLookup (Ok (version entry)))).
  { intros t. rewrite <- Hv1.
    apply (lookupLatestVersion_hit (set_now t s1) ty pv entry1); [done|].
    by rewrite Hv1. }
  split; [intros t; by rewrite Hhit|]. split.
  { intros l' ->. unfold s1. simpl. rewrite list_lookup_alter_eq.
    by destruct (heap s !! l'). }
  intros Hcase. specialize (Hheld Hcase). subst entry1.
  split; [done|]. intros t Hstale. rewrite Hhit. simpl.
  rewrite (checkAndRefreshCache_stale (set_now t s1) ty pv l
             (mkEntry (version entry) (timestamp entry) false)) by done.
  assert (Htl : tasks s1 = tasks s0) by (unfold s1; by destruct held).
  split; [done|]. split.
  - unfold fetchCount. simpl. rewrite filter_app, length_app.
    rewrite filter_cons_True by done. simpl. lia.
  - unfold inFlight. simpl. apply lookup_snoc_length.
Qed.

(** C5, as the claim has it, fails when the refresh that fails is not the
    one that holds the key's cached entry; the cached entry then stays
    marked and the next lookup that finds it stale invokes no Fetcher.

    First run: a refresh is triggered for a key without an entry (task 0,
    holding no entry); a lookup then fetches and caches version 1.0.0.0;
    once that entry is stale a lookup launches its refresh (task 2); then
    the Fetcher call of task 0 fails.

    Second run, lookups only: two lookups of an uncached key suspend on two
    Fetcher calls; the first creates the entry, whose refresh (task 2) is
    launched once it is stale; the second replaces the entry, whose refresh
    (task 3) is launched once that is stale; then the Fetcher call of task 2
    fails. *)
Lemma refresh_failure_counterexample :
  let ttl := CACHE_DURATION_MS in
  let failed := PageThrew "Navigation timeout" in
  (let s :=
     exec initial
       [EvCheckAndRefresh win false; EvLookup win false;
        EvSettle 1 (PageHref (href_of "1.0.0.0")); EvClock ttl;
        EvLookup win false] in
   let s1 := fst (step s (EvSettle 0 failed)) in
   let s2 := fst (step s1 (EvClock (2 * ttl))) in
   entryOf s (getCacheKey win false) = Some (mkEntry "1.0.0.0" 0 true) /\
   inFlight s 0 (Refresh win false None) /\
   lookupLatestVersionInternal win false failed = Err "Navigation timeout" /\
   entryOf s1 (getCacheKey win false) = Some (mkEntry "1.0.0.0" 0 true) /\
   CACHE_DURATION_MS <= now s2 - 0 /\
   snd (step s2 (EvLookup win false)) = OutLookup (Ok "1.0.0.0") /\
   fetchLog (fst (step s2 (EvLookup win false))) = fetchLog s1) /\
  (let s :=
     exec initial
       [EvLookup win false; EvLookup win false;
        EvSettle 0 (PageHref (href_of "1.0.0.0")); EvClock ttl;
        EvLookup win false;
        EvSettle 1 (PageHref (href_of "1.0.0.1")); EvClock (2 * ttl);
        EvLookup win false] in
   let s1 := fst (step s (EvSettle 2 failed)) in
   let s2 := fst (step s1 (EvClock (3 * ttl))) in
   entryOf s (getCacheKey win false) = Some (mkEntry "1.0.0.1" ttl true) /\
   inFlight s 2 (Refresh win false (Some 0%nat)) /\
   entryOf s1 (getCacheKey win false) = Some (mkEntry "1.0.0.1" ttl true) /\
   CACHE_DURATION_MS <= now s2 - ttl /\
   snd (step s2 (EvLookup win false)) = OutLookup (Ok "1.0.0.1") /\
   fetchLog (fst (step s2 (EvLookup win false))) = fetchLog s1).
Proof.
  cbv zeta. repeat match goal with |- _ /\ _ => split end; by vm_compute.
Qed.

(** ** The status listing *)

Lemma cacheStatus_entries_ext s s' :
  (forall ty pv, getCachedVersion s' ty pv = getCachedVersion s ty pv) ->
  entries (cacheStatus s') = entries (cacheStatus s).
Proof. intros H. simpl. by rewrite !H. Qed.

Lemma step_keeps_versions s ev ty pv :
  reachable s -> no_fetch_completes ev ->
  getCachedVersion (fst (step s ev)) ty pv = getCachedVersion s ty pv.
Proof.
  intros Hr Hev. apply same_data_version.
  destruct (step_data s ev (getCacheKey ty pv) (reachable_WF s Hr))
    as [Hsame | (e' & _ & id & o & t & -> & _ & _ & Hres & _)]; [done|].
  apply pageSucceeds_Ok in Hres. rewrite (Hev id o eq_refl) in Hres. done.
Qed.

Lemma exec_keeps_versions s evs ty pv :
  reachable s -> Forall no_fetch_completes evs ->
  getCachedVersion (exec s evs) ty pv = getCachedVersion s ty pv.
Proof.
  revert s. induction evs as [|ev evs IH]; intros s Hr Hevs; [done|].
  apply Forall_cons in Hevs as [Hev Hevs]. rewrite exec_cons.
  rewrite IH by (by try constructor). by apply step_keeps_versions.
Qed.

(** C8, as the code has it.  The status handler reads and does not write.
    Over any run in which no Fetcher call settles with a version -- lookups,
    refresh triggers, clock changes, failed fetches and further status
    calls are all allowed -- the listing of entries and the TTL fields of
    the response stay the same; the [timestamp] field of the response is
    the clock reading at the call. *)
Theorem status_stable s evs :
  reachable s ->
  Forall no_fetch_completes evs ->
  let s' := exec s evs in
  step s' EvStatus = (s', OutStatus (cacheStatus s')) /\
  entries (cacheStatus s') = entries (cacheStatus s) /\
  cacheDurationMs (cacheStatus s') = cacheDurationMs (cacheStatus s) /\
  cacheDurationHours (cacheStatus s') = cacheDurationHours (cacheStatus s) /\
  cacheDurationMs (cacheStatus s') = 21600000 /\
  cacheDurationHours (cacheStatus s') = 6 /\
  status_timestamp (cacheStatus s') = now s'.
Proof.
  intros Hr Hevs s'. subst s'. repeat split; try done.
  apply cacheStatus_entries_ext. intros ty pv. by apply exec_keeps_versions.
Qed.

(** C8, as the claim has it, fails.  After [initializeCache] has started, a
    status call lists no key as cached; the warm-up fetch for win/stable then
    completes -- there is no lookup in between -- and the next status call
    lists that key as cached.  And a change of the clock alone changes the
    [timestamp] field of the response. *)
Lemma status_changes_without_lookup :
  let s := exec initial [EvInit] in
  let between := [EvSettle 0 (PageHref sample_href)] in
  Forall (fun ev => forall ty pv, ev <> EvLookup ty pv) between /\
  entries (cacheStatus s)
  = [mkStatusEntry win false false None; mkStatusEntry win true false None;
     mkStatusEntry linux false false None; mkStatusEntry linux true false None] /\
  entries (cacheStatus (exec s between))
  = [mkStatusEntry win false true (Some "1.21.84.1");
     mkStatusEntry win true false None;
     mkStatusEntry linux false false None; mkStatusEntry linux true false None] /\
  snd (step (exec s between) EvStatus) <> snd (step s EvStatus) /\
  snd (step (exec initial [EvClock 1]) EvStatus) <> snd (step initial EvStatus).
Proof.
  repeat split.
  - by repeat constructor.
  - intros H. vm_compute in H. discriminate H.
  - intros H. vm_compute in H. discriminate H.
Qed.

(** ** Warm-up *)

Lemma run_cons s ev evs :
  snd (run s (ev :: evs)) = snd (step s ev) :: snd (run (fst (step s ev)) evs).
Proof.
  cbn [run]. destruct (step s ev) as [s1 o]. cbn [fst snd].
  by destruct (run s1 evs).
Qed.

Lemma settle_other_key s i o t ty pv :
  WF s -> inFlight s i t -> task_key t <> (ty, pv) ->
  getCachedVersion (fst (settle i o s)) ty pv = getCachedVersion s ty pv.
Proof.
  intros Hwf Hi Hne. apply same_data_version.
  destruct (settle_data i o s (getCacheKey ty pv) Hwf)
    as [Hsame | (e' & _ & id & o' & t' & [= <- <-] & Hi' & Hkey & _)]; [done|].
  unfold inFlight in *. rewrite Hi in Hi'. injection Hi' as <-.
  apply getCacheKey_inj in Hkey as [Hty Hpv]. destruct Hne.
  destruct (task_key t) as [ty' pv']. simpl in *. by subst.
Qed.

Lemma settle_warm s i o ty pv g p :
  inFlight s i (Warm ty pv g) -> initPending s !! g = Some (S p) ->
  snd (settle i o s) = (match p with O => OutInit g Fulfilled | S _ => OutNone end) /\
  tasks (fst (settle i o s)) = <[i := None]> (tasks s) /\
  initPending (fst (settle i o s)) = <[g := p]> (initPending s) /\
  (forall v, lookupLatestVersionInternal ty pv o = Ok v ->
             getCachedVersion (fst (settle i o s)) ty pv = Some v).
Proof.
  intros Hi Hp. unfold inFlight in Hi. unfold settle. rewrite Hi.
  unfold initCallback_resume.
  destruct (lookupLatestVersionInternal ty pv o) as [v|e] eqn:Hres;
    unfold promiseAll_settle; simpl; rewrite Hp; simpl.
  - repeat split; try done. intros v' [= <-].
    apply (getCachedVersion_setCachedVersion ty pv v
             (set_tasks (<[i:=None]> (tasks s)) s)).
  - repeat split; done.
Qed.

Lemma warm_run settles : forall s g p,
  WF s ->
  NoDup (settles.*1) ->
  (forall i, i ∈ settles.*1 -> exists ty pv, inFlight s i (Warm ty pv g)) ->
  (forall i i' ty pv,
     i ∈ settles.*1 -> i' ∈ settles.*1 ->
     inFlight s i (Warm ty pv g) -> inFlight s i' (Warm ty pv g) -> i = i') ->
  initPending s !! g = Some p ->
  (length settles <= p)%nat ->
  let s2 := exec s (settleEvents settles) in
  initPending s2 !! g = Some (p - length settles)%nat /\
  (forall i o ty pv v,
     (i, o) ∈ settles -> inFlight s i (Warm ty pv g) ->
     lookupLatestVersionInternal ty pv o = Ok v ->
     getCachedVersion s2 ty pv = Some v) /\
  (forall ty pv,
     (forall i, i ∈ settles.*1 -> ~ inFlight s i (Warm ty pv g)) ->
     getCachedVersion s2 ty pv = getCachedVersion s ty pv) /\
  snd (run s (settleEvents settles)) = warm_outputs g p (length settles).
Proof.
  induction settles as [|[i o] rest IH]; intros s g p Hwf Hnd Hwarm Hdist Hp Hle.
  { simpl. rewrite Nat.sub_0_r. repeat split; try done.
    intros i o ty pv v Hm. by apply elem_of_nil in Hm. }
  rewrite fmap_cons in Hnd, Hwarm, Hdist. cbn [fst] in Hnd, Hwarm, Hdist.
  apply NoDup_cons in Hnd as [Hi Hnd].
  destruct (Hwarm i) as (ty & pv & Hin); [by left|].
  simpl in Hle. destruct p as [|p]; [lia|].
  destruct (settle_warm s i o ty pv g p Hin Hp) as (Hout & Htasks & Hpend & Hset).
  set (s1 := fst (settle i o s)) in *.
  assert (Hwf1 : WF s1) by (by apply WF_settle).
  assert (Hkeep : forall i' t, i' ∈ rest.*1 ->
            (inFlight s1 i' t <-> inFlight s i' t)).
  { intros i' t Hi'. unfold inFlight. rewrite Htasks.
    rewrite list_lookup_insert_ne; [done|]. by intros ->. }
  destruct (IH s1 g p) as (IH1 & IH2 & IH3 & IH4); try done.
  { intros i' Hi'. destruct (Hwarm i') as (ty' & pv' & Hin'); [by right|].
    exists ty', pv'. by apply Hkeep. }
  { intros i1 i2 ty' pv' H1 H2 Hf1 Hf2.
    apply (Hdist i1 i2 ty' pv'); [by right|by right|by apply Hkeep..]. }
  { rewrite Hpend. apply list_lookup_insert_eq. by eapply lookup_lt_Some. }
  { lia. }
  cbn [settleEvents map fst snd]. fold (settleEvents rest).
  rewrite exec_cons, run_cons. cbn [step]. fold s1.
  split; [|split; [|split]].
  - by rewrite IH1.
  - intros i0 o0 ty0 pv0 v Hmem Hin0 Hres.
    apply elem_of_cons in Hmem as [[= -> ->] | Hmem].
    + unfold inFlight in Hin0, Hin. rewrite Hin in Hin0.
      injection Hin0 as <- <-.
      rewrite IH3; [by apply Hset|].
      intros i' Hi' Hin'. apply Hkeep in Hin'; [|done].
      assert (i = i'); [|by subst].
      apply (Hdist i i' ty pv); [by left|by right|done..].
    + assert (Hi0 : i0 ∈ rest.*1).
      { by apply (list_elem_of_fmap_2 fst rest (i0, o0)). }
      apply (IH2 i0 o0); [done| |done]. by apply Hkeep.
  - intros ty0 pv0 Hnone. rewrite IH3.
    + apply (settle_other_key s i o (Warm ty pv g)); [done..|].
      simpl. intros [= -> ->]. apply (Hnone i); [by left|done].
    + intros i' Hi' Hin'. apply (Hnone i'); [by right|]. by apply Hkeep.
  - rewrite IH4. cbn [warm_outputs length]. f_equal.
    + rewrite Hout. by destruct p.
    + f_equal. lia.
Qed.

Lemma initializeCache_eq s :
  initializeCache s
  = mkState (heap s) (versionCache s)
      (tasks s ++ map (fun k => Some (Warm k.1 k.2 (length (initPending s))))
                      combinations)
      (initPending s ++ [4%nat])
      (fetchLog s ++ combinations)
      (now s).
Proof.
  unfold initializeCache, suspend, invokeFetcher, set_tasks, set_fetchLog,
    set_initPending. simpl. f_equal; by rewrite <- !app_assoc.
Qed.

Lemma initializeCache_inFlight s j ty pv :
  combinations !! j = Some (ty, pv) ->
  inFlight (initializeCache s) (length (tasks s) + j)
    (Warm ty pv (length (initPending s))).
Proof.
  intros Hj. unfold inFlight. rewrite initializeCache_eq. simpl tasks.
  rewrite lookup_app_r by lia.
  replace (length (tasks s) + j - length (tasks s))%nat with j by lia.
  destruct j as [|[|[|[|j]]]]; simpl in *; try discriminate Hj;
    by injection Hj as <- <-.
Qed.

Lemma warm_ids_inv (n i : nat) :
  i ∈ [n; n + 1; n + 2; n + 3]%nat ->
  exists j, (j < 4)%nat /\ i = (n + j)%nat.
Proof.
  intros Hi. repeat (apply elem_of_cons in Hi as [-> | Hi]).
  - exists 0%nat. lia.
  - exists 1%nat. lia.
  - exists 2%nat. lia.
  - exists 3%nat. lia.
  - by apply elem_of_nil in Hi.
Qed.

(** C7.  [initializeCache] invokes the Fetcher for the four combinations, in
    order, before any of the calls settles, and writes nothing yet.  Let the
    four calls then settle in any order and with any outcomes.  Every
    combination whose call returned a version has that version cached
    afterwards, whatever happened to the others; each of the first three
    settlings yields nothing and the fourth fulfils the promise of
    [initializeCache]: it is never rejected. *)
Theorem warmup_isolation s (settles : list (nat * PageOutcome)) :
  reachable s ->
  let n := length (tasks s) in
  let g := length (initPending s) in
  let s1 := fst (step s EvInit) in
  settles.*1 ≡ₚ [n; n + 1; n + 2; n + 3]%nat ->
  fetchLog s1 = (fetchLog s ++ combinations)%list /\
  (forall j ty pv,
     combinations !! j = Some (ty, pv) -> inFlight s1 (n + j) (Warm ty pv g)) /\
  heap s1 = heap s /\ versionCache s1 = versionCache s /\
  let s2 := exec s1 (settleEvents settles) in
  (forall j ty pv o v,
     combinations !! j = Some (ty, pv) ->
     ((n + j)%nat, o) ∈ settles ->
     lookupLatestVersionInternal ty pv o = Ok v ->
     getCachedVersion s2 ty pv = Some v) /\
  snd (run s1 (settleEvents settles))
  = [OutNone; OutNone; OutNone; OutInit g Fulfilled].
Proof.
  intros Hr n g s1 Hperm. subst s1. cbn [step fst].
  pose proof (initializeCache_inFlight s) as Hfl. fold n g in Hfl.
  split; [by rewrite initializeCache_eq|]. split; [exact Hfl|].
  split; [by rewrite initializeCache_eq|]. split; [by rewrite initializeCache_eq|].
  assert (Hlen : length settles = 4%nat).
  { apply Permutation_length in Hperm. by rewrite length_fmap in Hperm. }
  assert (Hids : forall i, i ∈ settles.*1 ->
            exists j ty pv, combinations !! j = Some (ty, pv) /\ i = (n + j)%nat).
  { intros i Hi. rewrite Hperm in Hi.
    apply warm_ids_inv in Hi as (j & Hj & ->).
    destruct (combinations !! j) as [[ty pv]|] eqn:Hc; [by eauto|].
    apply lookup_ge_None in Hc. simpl in Hc. lia. }
  destruct (warm_run settles (initializeCache s) g 4) as (_ & H2 & _ & H4).
  - apply WF_initializeCache. by apply reachable_WF.
  - rewrite Hperm. repeat (apply NoDup_cons; split);
      rewrite ?not_elem_of_cons, ?elem_of_nil; try apply NoDup_nil; lia.
  - intros i Hi. destruct (Hids i Hi) as (j & ty & pv & Hc & ->). eauto.
  - intros i i' ty pv Hi Hi' Hin Hin'.
    destruct (Hids i Hi) as (j & ty1 & pv1 & Hc & ->).
    destruct (Hids i' Hi') as (j' & ty2 & pv2 & Hc' & ->).
    pose proof (Hfl j ty1 pv1 Hc) as H1. pose proof (Hfl j' ty2 pv2 Hc') as H1'.
    unfold inFlight in *. rewrite Hin in H1. rewrite Hin' in H1'.
    injection H1 as <- <-. injection H1' as <- <-.
    pose proof (lookup_lt_Some _ _ _ Hc) as Hlt.
    pose proof (lookup_lt_Some _ _ _ Hc') as Hlt'. simpl in Hlt, Hlt'.
    destruct j as [|[|[|[|j]]]], j' as [|[|[|[|j']]]]; simpl in Hc, Hc';
      try lia; congruence.
  - rewrite initializeCache_eq. simpl. fold g. apply lookup_snoc_length.
  - lia.
  - split.
    + intros j ty pv o v Hc Hmem Hres. apply (H2 (n + j)%nat o); auto.
    + rewrite H4, Hlen. done.
Qed.

(** ** Single flight *)

Section Window.
Variables (k : Key) (l id0 : nat).

Lemma Frame_refl s : Frame k l id0 s s.
Proof. by repeat split. Qed.

Lemma Frame_trans s1 s2 s3 :
  Frame k l id0 s1 s2 -> Frame k l id0 s2 s3 -> Frame k l id0 s1 s3.
Proof.
  intros (A1 & A2 & A3 & A4 & A5) (B1 & B2 & B3 & B4 & B5).
  repeat split; try congruence. eauto.
Qed.

Lemma Frame_set_now t s : Frame k l id0 s (set_now t s).
Proof. by repeat split. Qed.

Lemma Frame_set_initPending p s : Frame k l id0 s (set_initPending p s).
Proof. by repeat split. Qed.

Lemma Frame_promiseAll_settle g r s : Frame k l id0 s (fst (promiseAll_settle g r s)).
Proof.
  unfold promiseAll_settle. destruct r; [|apply Frame_refl].
  destruct (initPending s !! g) as [[|n]|]; simpl;
    auto using Frame_refl, Frame_set_initPending.
Qed.

Lemma Frame_invokeFetcher ty pv s :
  (ty, pv) <> k -> Frame k l id0 s (invokeFetcher ty pv s).
Proof.
  intros Hne. repeat split; try done.
  rewrite fetchCount_invokeFetcher, decide_False by done. lia.
Qed.

Lemma Frame_suspend t s :
  task_key t <> k -> (id0 < length (tasks s))%nat -> Frame k l id0 s (suspend t s).
Proof.
  intros Hne Hlt. repeat split; try done.
  - simpl. by apply lookup_app_l.
  - intros id t' Hin Hk. unfold inFlight in *. simpl in Hin.
    apply lookup_snoc_Some in Hin as [Hin | [_ [= ->]]]; done.
Qed.

Lemma Frame_writeRefreshing entry b s :
  entry <> Some l -> Frame k l id0 s (writeRefreshing entry b s).
Proof.
  intros Hne. destruct entry as [l'|]; [|apply Frame_refl].
  repeat split; try done. simpl. apply list_lookup_alter_ne. congruence.
Qed.

Lemma Frame_setCachedVersion ty pv v s :
  (ty, pv) <> k -> (l < length (heap s))%nat ->
  Frame k l id0 s (setCachedVersion ty pv v s).
Proof.
  intros Hne Hlt. repeat split; try done.
  - simpl. apply lookup_insert_ne. destruct k as [ty' pv'].
    by apply getCacheKey_ne.
  - simpl. by apply lookup_app_l.
Qed.

Lemma Frame_clear_task id s :
  id <> id0 -> Frame k l id0 s (set_tasks (<[id := None]> (tasks s)) s).
Proof.
  intros Hne. repeat split; try done.
  - simpl. by apply list_lookup_insert_ne.
  - intros id' t Hin _. unfold inFlight in *. simpl in Hin.
    by apply lookup_insert_None_Some in Hin as [_ Hin].
Qed.

Lemma Window_Frame v ts c s s' :
  Window k l id0 v ts c s -> WF s' -> Frame k l id0 s s' -> Window k l id0 v ts c s'.
Proof.
  intros [W1 W2 W3 W4 W5 W6] Hwf (F1 & F2 & F3 & F4 & F5).
  split.
  - done.
  - by rewrite F1.
  - by rewrite F2.
  - unfold inFlight in *. by rewrite F4.
  - eauto.
  - by rewrite F3.
Qed.

Lemma Window_lt v ts c s :
  Window k l id0 v ts c s ->
  (l < length (heap s))%nat /\ (id0 < length (tasks s))%nat.
Proof.
  intros [_ _ W3 W4 _ _]. split; by eapply lookup_lt_Some.
Qed.

(** A lookup or a refresh trigger for [k] itself finds the entry marked. *)
Lemma Window_checkAndRefreshCache_same v ts c s :
  Window k l id0 v ts c s -> checkAndRefreshCache k.1 k.2 s = s.
Proof.
  intros [_ W2 W3 _ _ _].
  by apply (checkAndRefreshCache_marked s k.1 k.2 l (mkEntry v ts true)).
Qed.

Lemma Window_lookup_same v ts c s :
  Window k l id0 v ts c s ->
  lookupLatestVersion k.1 k.2 s = (s, OutLookup (Ok v)).
Proof.
  intros Hw. pose proof Hw as [W1 W2 W3 _ _ _].
  rewrite (lookupLatestVersion_hit s k.1 k.2 (mkEntry v ts true)).
  - by rewrite (Window_checkAndRefreshCache_same v ts c s).
  - apply entryOf_Some. eauto.
  - apply (wf_truthy s W1 l _ W3).
Qed.

Lemma Frame_refreshCacheEntry v ts c ty pv s :
  Window k l id0 v ts c s -> (ty, pv) <> k -> Frame k l id0 s (refreshCacheEntry ty pv s).
Proof.
  intros Hw Hne. destruct (Window_lt _ _ _ _ Hw) as [Hl Hid].
  destruct (refreshCacheEntry_cases ty pv s) as [[_ ->] | [_ ->]];
    [apply Frame_refl|].
  assert (Hentry : versionCache s !! getCacheKey ty pv <> Some l).
  { intros Heq. apply Hne.
    pose proof (wf_inj s (win_wf _ _ _ _ _ _ _ Hw) _ _ _ Heq (win_map _ _ _ _ _ _ _ Hw)) as Hk.
    apply getCacheKey_inj in Hk as [-> ->]. by destruct k. }
  eapply Frame_trans; [by apply Frame_writeRefreshing|].
  eapply Frame_trans; [by apply Frame_invokeFetcher|].
  apply Frame_suspend; [done|].
  by destruct (versionCache s !! getCacheKey ty pv).
Qed.

Lemma Frame_checkAndRefreshCache v ts c ty pv s :
  Window k l id0 v ts c s -> (ty, pv) <> k -> Frame k l id0 s (checkAndRefreshCache ty pv s).
Proof.
  intros Hw Hne. unfold checkAndRefreshCache.
  destruct (entryOf s _) as [e|]; [destruct (negb _)|];
    eauto using Frame_refreshCacheEntry, Frame_refl.
Qed.

Lemma Frame_lookupLatestVersion v ts c ty pv s :
  Window k l id0 v ts c s -> (ty, pv) <> k ->
  Frame k l id0 s (fst (lookupLatestVersion ty pv s)).
Proof.
  intros Hw Hne. destruct (Window_lt _ _ _ _ Hw) as [Hl Hid].
  assert (Hmiss : Frame k l id0 s (suspend (Miss ty pv) (invokeFetcher ty pv s))).
  { eapply Frame_trans; [by apply Frame_invokeFetcher|].
    by apply Frame_suspend. }
  unfold lookupLatestVersion.
  destruct (getCachedVersion s ty pv) as [w|]; [destruct (truthy w)|]; simpl;
    eauto using Frame_checkAndRefreshCache.
Qed.

Lemma Frame_settle v ts c id o s :
  Window k l id0 v ts c s -> id <> id0 -> Frame k l id0 s (fst (settle id o s)).
Proof.
  intros Hw Hne. destruct (Window_lt _ _ _ _ Hw) as [Hl Hid].
  unfold settle. destruct (tasks s !! id) as [[t|]|] eqn:Ht;
    [|apply Frame_refl..].
  assert (Hk : task_key t <> k).
  { intros Hk. apply Hne. by apply (win_only _ _ _ _ _ _ _ Hw id t). }
  pose proof (Frame_clear_task id s Hne) as F0.
  set (s0 := set_tasks (<[id:=None]> (tasks s)) s) in *.
  assert (Hset : forall ty pv w, (ty, pv) <> k ->
            Frame k l id0 s (setCachedVersion ty pv w s0)).
  { intros ty pv w Hne'. eapply Frame_trans; [exact F0|].
    by apply Frame_setCachedVersion. }
  destruct t as [ty pv|ty pv entry|ty pv g]; simpl in Hk.
  - unfold lookupLatestVersion_resume.
    destruct (lookupLatestVersionInternal ty pv o); simpl; auto.
  - simpl. unfold refreshCacheEntry_resume.
    destruct (lookupLatestVersionInternal ty pv o); [auto|].
    eapply Frame_trans; [exact F0|]. apply Frame_writeRefreshing.
    intros ->.
    destruct (wf_captured s (win_wf _ _ _ _ _ _ _ Hw) id ty pv l Ht) as [_ Hown].
    pose proof (Hown _ (win_map _ _ _ _ _ _ _ Hw)) as Heq.
    apply getCacheKey_inj in Heq as [Hty Hpv]. apply Hk.
    destruct k; simpl in *; by subst.
  - unfold initCallback_resume.
    destruct (lookupLatestVersionInternal ty pv o).
    + eapply Frame_trans; [by apply Hset|apply Frame_promiseAll_settle].
    + eapply Frame_trans; [exact F0|apply Frame_promiseAll_settle].
Qed.

Lemma Window_step v ts c s ev :
  Window k l id0 v ts c s -> window_event id0 ev -> Window k l id0 v ts c (fst (step s ev)).
Proof.
  intros Hw [Hinit Hset].
  apply (Window_Frame v ts c s); [done|by apply WF_step, (win_wf _ _ _ _ _ _ _ Hw)|].
  destruct ev as [t|ty pv|ty pv| | |id o]; simpl.
  - apply Frame_set_now.
  - destruct (decide ((ty, pv) = k)) as [Hk|Hne].
    + assert (ty = k.1 /\ pv = k.2) as [-> ->] by (by rewrite <- Hk).
      rewrite (Window_lookup_same v ts c s Hw). apply Frame_refl.
    + by apply (Frame_lookupLatestVersion v ts c).
  - destruct (decide ((ty, pv) = k)) as [Hk|Hne].
    + assert (ty = k.1 /\ pv = k.2) as [-> ->] by (by rewrite <- Hk).
      rewrite (Window_checkAndRefreshCache_same v ts c s Hw). apply Frame_refl.
    + by apply (Frame_checkAndRefreshCache v ts c).
  - done.
  - apply Frame_refl.
  - apply (Frame_settle v ts c); [done|]. intros ->. by apply (Hset o).
Qed.

Lemma Window_exec v ts c s evs :
  Window k l id0 v ts c s -> Forall (window_event id0) evs -> Window k l id0 v ts c (exec s evs).
Proof.
  revert s. induction evs as [|ev evs IH]; intros s Hw Hevs; [done|].
  apply Forall_cons in Hevs as [Hev Hevs]. rewrite exec_cons.
  apply IH; [|done]. by apply Window_step.
Qed.
End Window.

(** C4, as the code has it.  Let a key have a cached entry that is stale,
    and let no Fetcher call for that key be in flight.  A lookup
    answers with the old version at once, invokes the Fetcher once and
    suspends one refresh holding the entry.  From then on, over any run of
    events other than the settling of that refresh and a new
    [initializeCache] -- lookups and refresh triggers for any key, clock
    changes, status calls, the settling of other calls -- the number of
    Fetcher invocations for the key stays at that one more, that refresh is
    the only call in flight for the key, and a further lookup or refresh
    trigger for the key changes nothing, the lookup answering with the old
    version. *)
Theorem single_flight s ty pv l entry evs :
  reachable s ->
  versionCache s !! getCacheKey ty pv = Some l ->
  heap s !! l = Some entry ->
  CACHE_DURATION_MS <= now s - timestamp entry ->
  (forall id t, inFlight s id t -> task_key t <> (ty, pv)) ->
  let id0 := length (tasks s) in
  Forall (window_event id0) evs ->
  let s1 := fst (step s (EvLookup ty pv)) in
  let s2 := exec s1 evs in
  snd (step s (EvLookup ty pv)) = OutLookup (Ok (version entry)) /\
  fetchCount (ty, pv) s1 = S (fetchCount (ty, pv) s) /\
  inFlight s1 id0 (Refresh ty pv (Some l)) /\
  fetchCount (ty, pv) s2 = S (fetchCount (ty, pv) s) /\
  (forall id t,
     inFlight s2 id t -> task_key t = (ty, pv) ->
     id = id0 /\ t = Refresh ty pv (Some l)) /\
  step s2 (EvLookup ty pv) = (s2, OutLookup (Ok (version entry))) /\
  step s2 (EvCheckAndRefresh ty pv) = (s2, OutNone).
Proof.
  intros Hr Hl He Hstale Hnone id0 Hevs s1 s2.
  pose proof (reachable_WF s Hr) as Hwf.
  pose proof (wf_truthy s Hwf l entry He) as Hv.
  assert (Hflag : refreshing entry = false).
  { destruct (refreshing entry) eqn:Hm; [exfalso|done].
    destruct (reachable_Held s Hr _ l entry Hl He Hm) as (id' & ty' & pv' & Hin').
    destruct (wf_captured s Hwf id' ty' pv' l Hin') as [_ Hown].
    pose proof (Hown _ Hl) as Hk. apply getCacheKey_inj in Hk as [<- <-].
    by apply (Hnone id' _ Hin'). }
  assert (Hent : entryOf s (getCacheKey ty pv) = Some entry).
  { apply entryOf_Some. eauto. }
  assert (Hstep : step s (EvLookup ty pv)
            = (suspend (Refresh ty pv (Some l))
                 (invokeFetcher ty pv (writeRefreshing (Some l) true s)),
               OutLookup (Ok (version entry)))).
  { simpl. rewrite (lookupLatestVersion_hit s ty pv entry Hent Hv).
    by rewrite (checkAndRefreshCache_stale s ty pv l entry). }
  assert (Hw1 : Window (ty, pv) l id0 (version entry) (timestamp entry)
                  (S (fetchCount (ty, pv) s)) s1).
  { split.
    - subst s1. by apply WF_step.
    - subst s1. by rewrite Hstep.
    - subst s1. rewrite Hstep. simpl. rewrite list_lookup_alter_eq. by rewrite He.
    - subst s1. rewrite Hstep. unfold inFlight. simpl. apply lookup_snoc_length.
    - subst s1. rewrite Hstep. intros id t Hin Hk. unfold inFlight in Hin.
      simpl in Hin. apply lookup_snoc_Some in Hin as [Hin | [Hid _]]; [|done].
      by destruct (Hnone id t Hin).
    - subst s1. rewrite Hstep. unfold fetchCount. simpl.
      rewrite filter_app, length_app, filter_cons_True by done. simpl. lia. }
  pose proof (Window_exec _ _ _ _ _ _ s1 evs Hw1 Hevs) as Hw2. fold s2 in Hw2.
  split; [by rewrite Hstep|].
  split; [exact (win_count _ _ _ _ _ _ _ Hw1)|].
  split; [exact (win_task _ _ _ _ _ _ _ Hw1)|].
  split; [exact (win_count _ _ _ _ _ _ _ Hw2)|].
  split.
  { intros id t Hin Hk.
    pose proof (win_only _ _ _ _ _ _ _ Hw2 id t Hin Hk) as ->.
    split; [done|]. pose proof (win_task _ _ _ _ _ _ _ Hw2) as Hin0.
    unfold inFlight in *. simpl in Hin0. congruence. }
  split.
  - simpl. apply (Window_lookup_same _ _ _ _ _ _ _ Hw2).
  - simpl. f_equal. apply (Window_checkAndRefreshCache_same _ _ _ _ _ _ _ Hw2).
Qed.

(** C4, as the claim has it, fails, in two ways.

    A refresh trigger for a key without an entry has no entry to mark:
    two calls of [checkAndRefreshCache] leave two refreshes of the same key
    in flight, each with its own Fetcher invocation.

    And the mark sits on the entry object, which [setCachedVersion]
    replaces.  Two lookups of an uncached key suspend on two Fetcher calls;
    the first returns and creates the entry; once that entry is stale a
    lookup launches a refresh (task 2) and is answered with the old version;
    the second of the early calls then returns and installs a new, unmarked
    entry; once that one is stale as well a further lookup, issued while
    task 2 is still in flight, launches a second refresh (task 3) with a
    Fetcher invocation of its own. *)
Lemma single_flight_counterexample :
  (let s := exec initial [EvCheckAndRefresh win false; EvCheckAndRefresh win false] in
   inFlight s 0 (Refresh win false None) /\
   inFlight s 1 (Refresh win false None) /\
   fetchCount (win, false) s = 2%nat) /\
  (let ttl := CACHE_DURATION_MS in
   let before :=
     [EvLookup win false; EvLookup win false;
      EvSettle 0 (PageHref (href_of "1.0.0.0")); EvClock ttl] in
   let during := [EvSettle 1 (PageHref (href_of "1.0.0.1")); EvClock (2 * ttl)] in
   let s := exec initial before in
   let s1 := fst (step s (EvLookup win false)) in
   let s2 := exec s1 during in
   let s3 := fst (step s2 (EvLookup win false)) in
   snd (step s (EvLookup win false)) = OutLookup (Ok "1.0.0.0") /\
   fetchCount (win, false) s1 = S (fetchCount (win, false) s) /\
   inFlight s1 2 (Refresh win false (Some 0%nat)) /\
   Forall (window_event 2) during /\
   inFlight s2 2 (Refresh win false (Some 0%nat)) /\
   snd (step s2 (EvLookup win false)) = OutLookup (Ok "1.0.0.1") /\
   fetchCount (win, false) s3 = S (S (fetchCount (win, false) s)) /\
   inFlight s3 2 (Refresh win false (Some 0%nat)) /\
   inFlight s3 3 (Refresh win false (Some 1%nat))).
Proof.
  split.
  - by vm_compute.
  - cbv zeta. repeat split; try (by vm_compute).
    repeat constructor; done.
Qed.

(** * Concrete runs

    Each theorem above that has hypotheses is applied here to a run of the
    program on which they hold. *)

Lemma lookup_failure_only_on_miss_witness :
  let s := exec initial [EvLookup win false] in
  let ev := EvSettle 0 (PageThrew "Navigation timeout") in
  reachable s /\
  snd (step s ev) = OutLookup (Err "Navigation timeout") /\
  exists id o ty pv,
    ev = EvSettle id o /\ inFlight s id (Miss ty pv) /\
    lookupLatestVersionInternal ty pv o = Err "Navigation timeout".
Proof.
  cbv zeta.
  assert (Hr : reachable (exec initial [EvLookup win false]))
    by (apply reachable_exec, reach_initial).
  split; [exact Hr|]. split; [by vm_compute|].
  apply (proj1 (lookup_failure_only_on_miss _
                  (EvSettle 0 (PageThrew "Navigation timeout")) Hr)).
  by vm_compute.
Defined.

Lemma lookup_never_fetched_witness :
  reachable initial /\ ((win, false) ∉ fetchLog initial) /\
  snd (step initial (EvLookup win false)) = OutNone /\
  fetchLog (fst (step initial (EvLookup win false))) = [(win, false)] /\
  fetchCount (win, false) (fst (step initial (EvLookup win false))) = 1%nat.
Proof.
  assert (Hn : (win, false) ∉ fetchLog initial) by apply not_elem_of_nil.
  split; [apply reach_initial|]. split; [exact Hn|].
  destruct (lookup_never_fetched initial win false reach_initial Hn)
    as (H1 & H2 & H3 & _).
  by repeat split.
Defined.

Lemma lookup_fresh_witness :
  let s := exec initial run_cached in
  let entry := mkEntry "1.0.0.0" 0 false in
  reachable s /\
  entryOf s (getCacheKey win false) = Some entry /\
  now s - timestamp entry < CACHE_DURATION_MS /\
  step s (EvLookup win false) = (s, OutLookup (Ok "1.0.0.0")).
Proof.
  cbv zeta.
  assert (Hr : reachable (exec initial run_cached))
    by (apply reachable_exec, reach_initial).
  assert (He : entryOf (exec initial run_cached) (getCacheKey win false)
               = Some (mkEntry "1.0.0.0" 0 false)) by (by vm_compute).
  assert (Hf : now (exec initial run_cached) - timestamp (mkEntry "1.0.0.0" 0 false)
               < CACHE_DURATION_MS) by (by vm_compute).
  split; [exact Hr|]. split; [exact He|]. split; [exact Hf|].
  exact (proj1 (lookup_fresh _ win false _ Hr He Hf)).
Defined.

Lemma single_flight_witness :
  let s := exec initial run_stale in
  let entry := mkEntry "1.0.0.0" 0 false in
  let evs :=
    [EvLookup win false; EvCheckAndRefresh win false; EvLookup linux true;
     EvClock (2 * CACHE_DURATION_MS); EvStatus; EvLookup win false] in
  reachable s /\
  versionCache s !! getCacheKey win false = Some 0%nat /\
  heap s !! 0%nat = Some entry /\
  CACHE_DURATION_MS <= now s - timestamp entry /\
  (forall id t, inFlight s id t -> task_key t <> (win, false)) /\
  Forall (window_event (length (tasks s))) evs /\
  fetchCount (win, false) (exec (fst (step s (EvLookup win false))) evs)
  = S (fetchCount (win, false) s).
Proof.
  cbv zeta.
  assert (Hr : reachable (exec initial run_stale))
    by (apply reachable_exec, reach_initial).
  assert (Hl : versionCache (exec initial run_stale) !! getCacheKey win false
               = Some 0%nat) by (by vm_compute).
  assert (He : heap (exec initial run_stale) !! 0%nat
               = Some (mkEntry "1.0.0.0" 0 false)) by (by vm_compute).
  assert (Hs : CACHE_DURATION_MS
               <= now (exec initial run_stale) - timestamp (mkEntry "1.0.0.0" 0 false))
    by (by vm_compute).
  assert (Hn : forall id t, inFlight (exec initial run_stale) id t ->
                            task_key t <> (win, false)).
  { intros id t Hin. unfold inFlight in Hin.
    change (tasks (exec initial run_stale)) with [@None Task] in Hin.
    destruct id as [|id]; discriminate Hin. }
  assert (Hw : Forall (window_event (length (tasks (exec initial run_stale))))
                 [EvLookup win false; EvCheckAndRefresh win false;
                  EvLookup linux true; EvClock (2 * CACHE_DURATION_MS);
                  EvStatus; EvLookup win false]).
  { repeat constructor; try discriminate; intros o; discriminate. }
  split; [exact Hr|]. split; [exact Hl|]. split; [exact He|].
  split; [exact Hs|]. split; [exact Hn|]. split; [exact Hw|].
  destruct (single_flight _ win false 0%nat _ _ Hr Hl He Hs Hn Hw)
    as (_ & _ & _ & Hc & _).
  exact Hc.
Defined.

Lemma refresh_failure_keeps_entry_witness :
  let s := exec initial run_refreshing in
  let entry := mkEntry "1.0.0.0" 0 true in
  let o := PageThrew "Navigation timeout" in
  reachable s /\
  inFlight s 1 (Refresh win false (Some 0%nat)) /\
  versionCache s !! getCacheKey win false = Some 0%nat /\
  heap s !! 0%nat = Some entry /\
  lookupLatestVersionInternal win false o = Err "Navigation timeout" /\
  entryOf (fst (step s (EvSettle 1 o))) (getCacheKey win false)
  = Some (mkEntry "1.0.0.0" 0 false).
Proof.
  cbv zeta.
  assert (Hr : reachable (exec initial run_refreshing))
    by (apply reachable_exec, reach_initial).
  assert (Hi : inFlight (exec initial run_refreshing) 1
                 (Refresh win false (Some 0%nat))) by (by vm_compute).
  assert (Hl : versionCache (exec initial run_refreshing) !! getCacheKey win false
               = Some 0%nat) by (by vm_compute).
  assert (He : heap (exec initial run_refreshing) !! 0%nat
               = Some (mkEntry "1.0.0.0" 0 true)) by (by vm_compute).
  assert (Ho : lookupLatestVersionInternal win false (PageThrew "Navigation timeout")
               = Err "Navigation timeout") by reflexivity.
  split; [exact Hr|]. split; [exact Hi|]. split; [exact Hl|].
  split; [exact He|]. split; [exact Ho|].
  destruct (refresh_failure_keeps_entry _ win false 1 _ 0 _ _ _ Hr Hl He Hi Ho)
    as (_ & _ & _ & _ & _ & _ & _ & _ & H).
  exact (proj1 (H (or_introl eq_refl))).
Defined.

Lemma warmup_isolation_witness :
  let settles :=
    [(2%nat, PageHref (href_of "1.0.0.0")); (0%nat, PageThrew "Navigation timeout");
     (3%nat, PageHref ""); (1%nat, PageHref (href_of "1.0.0.1"))] in
  let s1 := fst (step initial EvInit) in
  reachable initial /\
  settles.*1 ≡ₚ [0; 0 + 1; 0 + 2; 0 + 3]%nat /\
  getCachedVersion (exec s1 (settleEvents settles)) linux false = Some "1.0.0.0" /\
  getCachedVersion (exec s1 (settleEvents settles)) win true = Some "1.0.0.1" /\
  snd (run s1 (settleEvents settles))
  = [OutNone; OutNone; OutNone; OutInit 0 Fulfilled].
Proof.
  cbv zeta.
  assert (Hp : [(2%nat, PageHref (href_of "1.0.0.0"));
                (0%nat, PageThrew "Navigation timeout");
                (3%nat, PageHref ""); (1%nat, PageHref (href_of "1.0.0.1"))].*1
               ≡ₚ [0; 0 + 1; 0 + 2; 0 + 3]%nat).
  { by apply (bool_decide_unpack _). }
  split; [apply reach_initial|]. split; [exact Hp|].
  destruct (warmup_isolation initial _ reach_initial Hp)
    as (_ & _ & _ & _ & Hv & Ho).
  split; [|split; [|exact Ho]].
  - apply (Hv 2%nat linux false (PageHref (href_of "1.0.0.0"))); try reflexivity.
    apply elem_of_cons. by left.
  - apply (Hv 1%nat win true (PageHref (href_of "1.0.0.1"))); try reflexivity.
    do 3 (apply elem_of_cons; right). apply elem_of_cons. by left.
Defined.

Lemma status_stable_witness :
  let s := exec initial run_cached in
  let evs :=
    [EvStatus; EvLookup win false; EvLookup linux false; EvClock 5;
     EvSettle 1 (PageThrew "Navigation timeout"); EvStatus] in
  reachable s /\ Forall no_fetch_completes evs /\
  entries (cacheStatus (exec s evs)) = entries (cacheStatus s).
Proof.
  cbv zeta.
  assert (Hr : reachable (exec initial run_cached))
    by (apply reachable_exec, reach_initial).
  assert (Hevs : Forall no_fetch_completes
            [EvStatus; EvLookup win false; EvLookup linux false; EvClock 5;
             EvSettle 1 (PageThrew "Navigation timeout"); EvStatus]).
  { repeat constructor; intros id o Heq; try discriminate Heq.
    injection Heq as _ <-. reflexivity. }
  split; [exact Hr|]. split; [exact Hevs|].
  exact (proj1 (proj2 (status_stable _ _ Hr Hevs))).
Defined.

Lemma entry_lifecycle_witness :
  let s := exec initial [EvLookup win false] in
  let s' := fst (step s (EvSettle 0 (PageHref (href_of "1.0.0.0")))) in
  reachable s /\
  forall e', entryOf s' "win-stable" = Some e' ->
    (exists e, entryOf s "win-stable" = Some e /\
               version e' = version e /\ timestamp e' = timestamp e) \/
    (exists id o t,
       EvSettle 0 (PageHref (href_of "1.0.0.0")) = EvSettle id o /\
       inFlight s id t /\
       "win-stable" = getCacheKey (task_key t).1 (task_key t).2 /\
       lookupLatestVersionInternal (task_key t).1 (task_key t).2 o = Ok (version e') /\
       timestamp e' = now s /\ refreshing e' = false).
Proof.
  cbv zeta.
  assert (Hr : reachable (exec initial [EvLookup win false]))
    by (apply reachable_exec, reach_initial).
  split; [exact Hr|].
  exact (proj2 (entry_lifecycle _ (EvSettle 0 (PageHref (href_of "1.0.0.0")))
                  "win-stable" Hr)).
Defined.

(** * Further properties of the code *)

(** ** Keys and request parameters *)

(** X1.  The cache key determines the platform and the channel: two
    platform/channel pairs share a key only if they are the same pair, so no
    two combinations ever share a cache entry. *)
Theorem getCacheKey_injective ty pv ty' pv' :
  getCacheKey ty pv = getCacheKey ty' pv' <-> (ty, pv) = (ty', pv').
Proof.
  split; [|by intros [= -> ->]]. by intros [-> ->]%getCacheKey_inj.
Qed.

Lemma isValidBdsType_iff (type : string) :
  isValidBdsType type = true <-> type = "win" \/ type = "linux".
Proof.
  unfold isValidBdsType. simpl. rewrite orb_false_r, orb_true_iff.
  by rewrite !String.eqb_eq.
Qed.

(** X2.  [isValidBdsType] accepts exactly the strings "win" and "linux", in
    that spelling -- unlike the preview parameter, the type is matched with
    its case -- and the platform a valid string is narrowed to prints back as
    that string. *)
Theorem isValidBdsType_spec (type : string) :
  (isValidBdsType type = true <-> type = "win" \/ type = "linux") /\
  (isValidBdsType type = true -> bdsTypeStr (asBdsType type) = type) /\
  (forall t, isValidBdsType (bdsTypeStr t) = true /\ asBdsType (bdsTypeStr t) = t) /\
  (eq_ignore_case type "win" = true -> type <> "win" -> isValidBdsType type = false).
Proof.
  pose proof (isValidBdsType_iff type) as Hiff.
  split; [done|]. split; [|split].
  - intros [-> | ->]%Hiff; done.
  - by intros [].
  - clear Hiff. intros Hci Hne. destruct (isValidBdsType type) eqn:Hv; [|done].
    apply isValidBdsType_iff in Hv as [-> | ->]; [done|]. by vm_compute in Hci.
Qed.

(** ** The regular expression of the Fetcher *)

Lemma append_cons c (s t : string) : String c s +:+ t = String c (s +:+ t).
Proof. reflexivity. Qed.

Lemma append_nil_r (s : string) : s +:+ "" = s.
Proof. induction s as [|c s IH]; [done|]. by rewrite append_cons, IH. Qed.

Lemma append_assoc (s t u : string) : (s +:+ t) +:+ u = s +:+ t +:+ u.
Proof. induction s as [|c s IH]; [done|]. by rewrite !append_cons, IH. Qed.

Lemma strip_prefix_spec p s r : strip_prefix p s = Some r <-> s = p +:+ r.
Proof.
  revert s. induction p as [|a p IH]; intros s; simpl.
  - split; [by intros [= ->]|by intros ->].
  - destruct s as [|b s]; [by split|]. rewrite append_cons.
    destruct (Ascii.eqb a b) eqn:Hab.
    + apply Ascii.eqb_eq in Hab as ->. rewrite IH.
      split; [by intros ->|by intros [= ->]].
    + apply Ascii.eqb_neq in Hab. split; [done|]. intros [= -> _]. done.
Qed.

Lemma span_digits_spec s d r :
  span_digits s = (d, r) ->
  s = d +:+ r /\ all_digits d = true /\ no_digit_ahead r.
Proof.
  revert d r. induction s as [|c s IH]; intros d r; simpl.
  - by intros [= <- <-].
  - destruct (is_digit c) eqn:Hc.
    + destruct (span_digits s) as [d' r'] eqn:Hs. intros [= <- <-].
      destruct (IH d' r' eq_refl) as (-> & Hd & Hr).
      rewrite append_cons. simpl. by rewrite Hc, Hd.
    + intros [= <- <-]. simpl. by rewrite Hc.
Qed.

Lemma span_digits_app d r :
  all_digits d = true -> no_digit_ahead r -> span_digits (d +:+ r) = (d, r).
Proof.
  intros Hd Hr. induction d as [|c d IH].
  - change ("" +:+ r) with r. destruct r as [|c r]; simpl; [done|].
    simpl in Hr. by rewrite Hr.
  - simpl in Hd. apply andb_true_iff in Hd as [Hc Hd].
    rewrite append_cons. simpl. by rewrite Hc, (IH Hd).
Qed.

Lemma digits1_spec s d r :
  digits1 s = Some (d, r) <-> s = d +:+ r /\ digit_run d /\ no_digit_ahead r.
Proof.
  unfold digits1, digit_run. split.
  - destruct (span_digits s) as [d' r'] eqn:Hs.
    destruct (String.eqb d' "") eqn:Hd'; [done|]. intros [= <- <-].
    apply String.eqb_neq in Hd'.
    destruct (span_digits_spec _ _ _ Hs) as (-> & Hd & Hr). by repeat split.
  - intros (-> & [Hne Hd] & Hr). rewrite (span_digits_app d r Hd Hr).
    apply String.eqb_neq in Hne. by rewrite Hne.
Qed.

Lemma match_here_spec s v :
  match_here s = Some v <->
  is_version v /\ s = "bedrock-server-" +:+ v +:+ ".zip".
Proof.
  unfold match_here, is_version. split.
  - destruct (strip_prefix _ s) as [r0|] eqn:H0; cbn [mbind option_bind]; [|done].
    destruct (digits1 r0) as [[d1 r1]|] eqn:H1; cbn [mbind option_bind]; [|done].
    destruct (strip_prefix "." r1) as [r2|] eqn:H2; cbn [mbind option_bind]; [|done].
    destruct (digits1 r2) as [[d2 r3]|] eqn:H3; cbn [mbind option_bind]; [|done].
    destruct (strip_prefix "." r3) as [r4|] eqn:H4; cbn [mbind option_bind]; [|done].
    destruct (digits1 r4) as [[d3 r5]|] eqn:H5; cbn [mbind option_bind]; [|done].
    destruct (strip_prefix "." r5) as [r6|] eqn:H6; cbn [mbind option_bind]; [|done].
    destruct (digits1 r6) as [[d4 r7]|] eqn:H7; cbn [mbind option_bind]; [|done].
    destruct (strip_prefix ".zip" r7) as [r8|] eqn:H8; cbn [mbind option_bind]; [|done].
    destruct (String.eqb r8 "") eqn:H9; [|done]. intros [= <-].
    apply String.eqb_eq in H9 as ->.
    apply strip_prefix_spec in H0, H2, H4, H6, H8.
    apply digits1_spec in H1 as (-> & D1 & _), H3 as (-> & D2 & _),
      H5 as (-> & D3 & _), H7 as (-> & D4 & _).
    subst. split; [by exists d1, d2, d3, d4|].
    by rewrite !append_assoc.
  - intros ((d1 & d2 & d3 & d4 & D1 & D2 & D3 & D4 & ->) & ->).
    assert (H0 : strip_prefix "bedrock-server-"
              ("bedrock-server-" +:+ (d1 +:+ "." +:+ d2 +:+ "." +:+ d3 +:+ "." +:+ d4)
               +:+ ".zip")
              = Some ((d1 +:+ "." +:+ d2 +:+ "." +:+ d3 +:+ "." +:+ d4) +:+ ".zip"))
      by (by apply strip_prefix_spec).
    rewrite H0. cbn [mbind option_bind]. rewrite !append_assoc.
    assert (Hdot : forall r, no_digit_ahead ("." +:+ r)) by done.
    assert (Hp : forall r, strip_prefix "." ("." +:+ r) = Some r)
      by (intros r; by apply strip_prefix_spec).
    rewrite (proj2 (digits1_spec _ d1 _)) by done. cbn [mbind option_bind]. rewrite Hp. cbn [mbind option_bind].
    rewrite (proj2 (digits1_spec _ d2 _)) by done. cbn [mbind option_bind]. rewrite Hp. cbn [mbind option_bind].
    rewrite (proj2 (digits1_spec _ d3 _)) by done. cbn [mbind option_bind]. rewrite Hp. cbn [mbind option_bind].
    rewrite (proj2 (digits1_spec _ d4 ".zip")) by done. done.
Qed.

Lemma none_of_app p (s t : string) :
  none_of p (s +:+ t) = none_of p s && none_of p t.
Proof.
  induction s as [|c s IH]; [done|]. rewrite append_cons. simpl.
  by rewrite IH, andb_assoc.
Qed.

Lemma all_digits_no_b d : all_digits d = true -> none_of (Ascii.eqb "b") d = true.
Proof.
  induction d as [|c d IH]; [done|]. cbn [none_of all_digits].
  intros [Hc Hd]%andb_true_iff.
  rewrite (IH Hd), andb_true_r. apply negb_true_iff.
  destruct (Ascii.eqb_spec "b" c) as [<-|]; [|done]. by vm_compute in Hc.
Qed.

Lemma is_version_no_b v : is_version v -> none_of (Ascii.eqb "b") v = true.
Proof.
  intros (d1 & d2 & d3 & d4 & [_ D1] & [_ D2] & [_ D3] & [_ D4] & ->).
  rewrite !none_of_app, (all_digits_no_b d1), (all_digits_no_b d2),
    (all_digits_no_b d3), (all_digits_no_b d4) by done. done.
Qed.

Lemma is_version_truthy v : is_version v -> truthy v = true.
Proof.
  intros (d1 & d2 & d3 & d4 & [N1 _] & _ & _ & _ & ->).
  destruct d1; [done|]. done.
Qed.

Lemma regex_match_sound s v :
  regex_match s = Some v -> is_version v /\ exists pre, s = download_href pre v.
Proof.
  induction s as [|c s IH]; cbn [regex_match].
  - destruct (match_here "") as [w|] eqn:Hm; [|done]. intros [= ->].
    apply match_here_spec in Hm as [Hv Hs]. split; [done|]. by exists "".
  - destruct (match_here (String c s)) as [w|] eqn:Hm.
    + intros [= ->]. apply match_here_spec in Hm as [Hv Hs].
      split; [done|]. exists "". by rewrite Hs.
    + intros Hr. destruct (IH Hr) as (Hv & pre & ->).
      split; [done|]. by exists (String c pre).
Qed.

Lemma regex_match_complete pre v :
  is_version v -> regex_match (download_href pre v) = Some v.
Proof.
  intros Hv. unfold download_href. induction pre as [|c pre IH].
  - change ("" +:+ "bedrock-server-" +:+ v +:+ ".zip")
      with ("bedrock-server-" +:+ v +:+ ".zip").
    assert (Hm : match_here ("bedrock-server-" +:+ v +:+ ".zip") = Some v)
      by (by apply match_here_spec).
    destruct ("bedrock-server-" +:+ v +:+ ".zip"); cbn [regex_match]; by rewrite Hm.
  - rewrite append_cons. cbn [regex_match].
    destruct (match_here (String c (pre +:+ "bedrock-server-" +:+ v +:+ ".zip")))
      as [w|] eqn:Hm; [exfalso|exact IH].
    apply match_here_spec in Hm as [Hw Hs].
    change ("bedrock-server-" +:+ w +:+ ".zip")
      with (String "b" ("edrock-server-" +:+ w +:+ ".zip")) in Hs.
    injection Hs as _ Hs.
    assert (Hl : none_of (Ascii.eqb "b") (pre +:+ "bedrock-server-" +:+ v +:+ ".zip")
                 = false).
    { rewrite none_of_app. apply andb_false_iff. by right. }
    rewrite Hs, !none_of_app, (is_version_no_b w Hw) in Hl. done.
Qed.

Lemma lookupLatestVersionInternal_is_version ty pv o v :
  lookupLatestVersionInternal ty pv o = Ok v -> is_version v.
Proof.
  unfold lookupLatestVersionInternal. destruct o as [e|href]; [done|].
  destruct (negb (truthy href)); [done|].
  destruct (regex_match href) as [w|] eqn:Hm; [|done].
  destruct (truthy w); [|done]. intros [= ->].
  by destruct (regex_match_sound _ _ Hm).
Qed.

(** X3.  A version the Fetcher returns has the shape of four runs of digits
    separated by dots, and the href it was read from ends in
    [bedrock-server-<version>.zip]. *)
Theorem fetcher_sound ty pv o v :
  lookupLatestVersionInternal ty pv o = Ok v ->
  is_version v /\ exists pre, o = PageHref (download_href pre v).
Proof.
  unfold lookupLatestVersionInternal. destruct o as [e|href]; [done|].
  destruct (negb (truthy href)); [done|].
  destruct (regex_match href) as [w|] eqn:Hm; [|done].
  destruct (truthy w); [|done]. intros [= ->].
  destruct (regex_match_sound _ _ Hm) as (Hv & pre & ->). eauto.
Qed.

Lemma fetcher_sound_witness :
  lookupLatestVersionInternal win false
    (PageHref "https://www.minecraft.net/bedrockdedicatedserver/bin-win/bedrock-server-1.21.84.1.zip")
  = Ok "1.21.84.1" /\
  is_version "1.21.84.1".
Proof.
  assert (H : lookupLatestVersionInternal win false
    (PageHref "https://www.minecraft.net/bedrockdedicatedserver/bin-win/bedrock-server-1.21.84.1.zip")
    = Ok "1.21.84.1") by reflexivity.
  split; [exact H|]. exact (proj1 (fetcher_sound _ _ _ _ H)).
Defined.

(** X4.  Round trip: from an href that ends in [bedrock-server-<v>.zip],
    with [v] a version, the Fetcher returns exactly [v], whatever precedes
    it in the href and for either platform and channel. *)
Theorem fetcher_complete ty pv pre v :
  is_version v ->
  lookupLatestVersionInternal ty pv (PageHref (download_href pre v)) = Ok v.
Proof.
  intros Hv. unfold lookupLatestVersionInternal.
  assert (Ht : truthy (download_href pre v) = true).
  { unfold download_href. destruct pre; done. }
  rewrite Ht, (regex_match_complete pre v Hv), (is_version_truthy v Hv). done.
Qed.

Lemma fetcher_complete_witness :
  is_version "1.21.84.1" /\
  lookupLatestVersionInternal linux true
    (PageHref (download_href "https://www.minecraft.net/bedrockdedicatedserver/bin-linux-preview/" "1.21.84.1"))
  = Ok "1.21.84.1".
Proof.
  assert (Hv : is_version "1.21.84.1").
  { exists "1", "21", "84", "1". by repeat split. }
  split; [exact Hv|]. exact (fetcher_complete linux true _ _ Hv).
Defined.

(** X5.  The Fetcher fails in exactly three ways: the browser session threw,
    and that error is passed on; the href is empty, and the error names the
    platform and channel; or the href does not end in
    [bedrock-server-<version>.zip], and the error quotes the href. *)
Theorem fetcher_failure ty pv o msg :
  lookupLatestVersionInternal ty pv o = Err msg <->
  o = PageThrew msg \/
  (o = PageHref "" /\
   msg = "No download link found for " +:+ bdsTypeStr ty +:+ " " +:+ channelStr pv) \/
  (exists href,
     o = PageHref href /\ href <> "" /\
     (forall pre v, is_version v -> href <> download_href pre v) /\
     msg = "Failed to parse version from URL: " +:+ href).
Proof.
  split.
  - unfold lookupLatestVersionInternal. destruct o as [e|href].
    { intros [= ->]. by left. }
    destruct (truthy href) eqn:Ht; simpl.
    + apply truthy_true in Ht. intros Hr. right. right. exists href.
      assert (Hnone : forall pre v, is_version v -> href <> download_href pre v).
      { intros pre v Hv ->. rewrite (regex_match_complete pre v Hv) in Hr.
        by rewrite (is_version_truthy v Hv) in Hr. }
      destruct (regex_match href) as [w|]; [destruct (truthy w)|];
        try discriminate Hr; by injection Hr as <-.
    + intros [= <-]. right. left. split; [|done].
      destruct href; [done|discriminate Ht].
  - intros [-> | [[-> ->] | (href & -> & Hne & Hnone & ->)]]; [done..|].
    unfold lookupLatestVersionInternal.
    apply truthy_true in Hne. rewrite Hne. simpl.
    destruct (regex_match href) as [w|] eqn:Hm; [|done].
    destruct (regex_match_sound _ _ Hm) as (Hv & pre & ->).
    by destruct (Hnone pre w Hv).
Qed.

(** ** What the cache holds *)

Lemma heap_refreshCacheEntry ty pv s l e :
  heap (refreshCacheEntry ty pv s) !! l = Some e ->
  exists e0, heap s !! l = Some e0 /\ version e = version e0.
Proof.
  destruct (refreshCacheEntry_cases ty pv s) as [[_ ->] | [_ ->]]; [eauto|].
  destruct (versionCache s !! getCacheKey ty pv) as [l0|]; simpl; [|eauto].
  rewrite list_lookup_alter. case_decide; [|eauto].
  subst. destruct (heap s !! l) as [e0|]; simpl; [|done]. intros [= <-]. eauto.
Qed.

Lemma heap_step s ev l e :
  heap (fst (step s ev)) !! l = Some e ->
  (exists e0, heap s !! l = Some e0 /\ version e = version e0) \/
  (exists ty pv o, lookupLatestVersionInternal ty pv o = Ok (version e)).
Proof.
  assert (Hc : forall ty pv, heap (checkAndRefreshCache ty pv s) !! l = Some e ->
             exists e0, heap s !! l = Some e0 /\ version e = version e0).
  { intros ty pv. unfold checkAndRefreshCache.
    destruct (entryOf s _) as [e1|]; [destruct (negb _)|];
      eauto using heap_refreshCacheEntry. }
  assert (Hset : forall ty pv v o s0,
            heap s0 = heap s -> lookupLatestVersionInternal ty pv o = Ok v ->
            heap (setCachedVersion ty pv v s0) !! l = Some e ->
            (exists e0, heap s !! l = Some e0 /\ version e = version e0) \/
            (exists ty pv o, lookupLatestVersionInternal ty pv o = Ok (version e))).
  { intros ty pv v o s0 Hh Hr. simpl. rewrite Hh.
    intros [He | [_ ->]]%lookup_snoc_Some; [left; eauto|right]. simpl. eauto. }
  destruct ev as [t|ty pv|ty pv| | |id o]; cbn [step fst].
  - intros H. left. eauto.
  - unfold lookupLatestVersion.
    destruct (getCachedVersion s ty pv) as [v|]; [destruct (truthy v)|];
      cbn [fst]; intros H; left; eauto.
  - intros H. left. eauto.
  - rewrite initializeCache_eq. intros H. left. eauto.
  - intros H. left. eauto.
  - unfold settle. destruct (tasks s !! id) as [[t|]|]; try (left; by eauto).
    destruct t as [ty pv|ty pv held|ty pv g].
    + unfold lookupLatestVersion_resume.
      destruct (lookupLatestVersionInternal ty pv o) eqn:Hr; simpl;
        [by apply (Hset ty pv v o)|left; by eauto].
    + simpl. unfold refreshCacheEntry_resume.
      destruct (lookupLatestVersionInternal ty pv o) eqn:Hr;
        [by apply (Hset ty pv v o)|].
      destruct held as [l0|]; simpl; [|left; by eauto].
      rewrite list_lookup_alter. case_decide; [|left; by eauto].
      subst. destruct (heap s !! l) as [e0|]; simpl; [|done].
      intros [= <-]. left. eauto.
    + unfold initCallback_resume, promiseAll_settle.
      destruct (lookupLatestVersionInternal ty pv o) eqn:Hr.
      * intros H. apply (Hset ty pv v o (set_tasks (<[id:=None]> (tasks s)) s));
          [done..|].
        simpl in H. by destruct (initPending s !! g) as [[|n]|].
      * simpl. destruct (initPending s !! g) as [[|n]|]; simpl; left; by eauto.
Qed.

Lemma reachable_heap_version s l e :
  reachable s -> heap s !! l = Some e -> is_version (version e).
Proof.
  intros Hr. revert l e. induction Hr as [|s ev Hr IH]; intros l e.
  - simpl. by rewrite lookup_nil.
  - intros [(e0 & He0 & ->) | (ty & pv & o & Hres)]%heap_step; [eauto|].
    by apply lookupLatestVersionInternal_is_version in Hres.
Qed.

(** X6.  Whatever the cache serves is a version: in every reachable state a
    cached version consists of four runs of digits separated by dots; it is
    in particular never empty, and it is what the status listing shows. *)
Theorem cached_version_shape s ty pv v :
  reachable s ->
  getCachedVersion s ty pv = Some v ->
  is_version v /\ v <> "" /\
  In (mkStatusEntry ty pv true (Some v)) (entries (cacheStatus s)).
Proof.
  intros Hr Hv. pose proof Hv as (e & (l & _ & He)%entryOf_Some & <-)%getCachedVersion_Some.
  pose proof (reachable_heap_version s l e Hr He) as Hver.
  pose proof (is_version_truthy _ Hver) as Ht.
  split; [done|]. split; [by apply truthy_true|].
  pose proof (cacheStatus_entry s ty pv) as Hst. by rewrite Hv, Ht in Hst.
Qed.

Lemma cached_version_shape_witness :
  let s := exec initial run_cached in
  reachable s /\ getCachedVersion s win false = Some "1.0.0.0" /\
  is_version "1.0.0.0".
Proof.
  cbv zeta.
  assert (Hr : reachable (exec initial run_cached))
    by (apply reachable_exec, reach_initial).
  assert (Hv : getCachedVersion (exec initial run_cached) win false = Some "1.0.0.0")
    by (by vm_compute).
  split; [exact Hr|]. split; [exact Hv|].
  exact (proj1 (cached_version_shape _ win false _ Hr Hv)).
Defined.

(** X7.  The cache map never holds anything but the four keys win-stable,
    win-preview, linux-stable and linux-preview: it has at most four
    entries, however long the process runs. *)
Theorem cache_keys_bounded s :
  reachable s ->
  (forall key l, versionCache s !! key = Some l -> key ∈ cacheKeys) /\
  cacheKeys = ["win-stable"; "win-preview"; "linux-stable"; "linux-preview"] /\
  (size (versionCache s) <= 4)%nat.
Proof.
  intros Hr. pose proof (reachable_WF s Hr) as Hwf.
  assert (Hkeys : forall key l, versionCache s !! key = Some l -> key ∈ cacheKeys).
  { intros key l Hl.
    destruct (wf_logged_entry s Hwf key l Hl) as (ty & pv & -> & _).
    rewrite list_elem_of_In. destruct ty, pv; simpl; auto. }
  split; [done|]. split; [done|].
  rewrite <- size_dom.
  assert (Hsub : dom (versionCache s) ⊆ (list_to_set cacheKeys : gset string)).
  { intros key [l Hl]%elem_of_dom. apply elem_of_list_to_set. eauto. }
  apply subseteq_size in Hsub. etrans; [exact Hsub|]. by vm_compute.
Qed.

Lemma cache_keys_bounded_witness :
  let s := exec initial (EvInit :: settleEvents
             [(0%nat, PageHref (href_of "1.0.0.0")); (1%nat, PageHref (href_of "1.0.0.1"));
              (2%nat, PageHref (href_of "1.0.0.0")); (3%nat, PageHref (href_of "1.0.0.1"))]) in
  reachable s /\ size (versionCache s) = 4%nat /\ (size (versionCache s) <= 4)%nat.
Proof.
  cbv zeta.
  match goal with |- reachable ?s /\ _ =>
    assert (Hr : reachable s) by (apply reachable_exec, reach_initial) end.
  split; [exact Hr|]. split; [by vm_compute|].
  exact (proj2 (proj2 (cache_keys_bounded _ Hr))).
Defined.

(** X8.  An entry is never left marked without an outstanding Fetcher call:
    in every reachable state, if the cached entry of a key has
    [refreshing = true], a refresh of that very key holding that very entry
    is in flight. *)
Theorem marked_entry_has_refresh s ty pv l e :
  reachable s ->
  versionCache s !! getCacheKey ty pv = Some l ->
  heap s !! l = Some e ->
  refreshing e = true ->
  exists id, inFlight s id (Refresh ty pv (Some l)).
Proof.
  intros Hr Hl He Hm.
  destruct (reachable_Held s Hr _ l e Hl He Hm) as (id & ty' & pv' & Hin).
  destruct (wf_captured s (reachable_WF s Hr) id ty' pv' l Hin) as [_ Hown].
  apply Hown, getCacheKey_inj in Hl as [-> ->]. eauto.
Qed.

Lemma marked_entry_has_refresh_witness :
  let s := exec initial run_refreshing in
  reachable s /\
  versionCache s !! getCacheKey win false = Some 0%nat /\
  heap s !! 0%nat = Some (mkEntry "1.0.0.0" 0 true) /\
  exists id, inFlight s id (Refresh win false (Some 0%nat)).
Proof.
  cbv zeta.
  assert (Hr : reachable (exec initial run_refreshing))
    by (apply reachable_exec, reach_initial).
  assert (Hl : versionCache (exec initial run_refreshing) !! getCacheKey win false
               = Some 0%nat) by (by vm_compute).
  assert (He : heap (exec initial run_refreshing) !! 0%nat
               = Some (mkEntry "1.0.0.0" 0 true)) by (by vm_compute).
  split; [exact Hr|]. split; [exact Hl|]. split; [exact He|].
  exact (marked_entry_has_refresh _ win false 0 _ Hr Hl He eq_refl).
Defined.

(** ** Fetcher calls and suspended calls *)

Lemma spawn_refreshCacheEntry ty pv s :
  (fetchLog (refreshCacheEntry ty pv s) = fetchLog s /\
   tasks (refreshCacheEntry ty pv s) = tasks s) \/
  (fetchLog (refreshCacheEntry ty pv s) = (fetchLog s ++ [(ty, pv)])%list /\
   exists t, task_key t = (ty, pv) /\
     tasks (refreshCacheEntry ty pv s) = (tasks s ++ [Some t])%list).
Proof.
  destruct (refreshCacheEntry_cases ty pv s) as [[_ ->] | [_ ->]]; [by left|right].
  split.
  - simpl. by destruct (versionCache s !! getCacheKey ty pv).
  - exists (Refresh ty pv (versionCache s !! getCacheKey ty pv)).
    split; [done|]. simpl. by destruct (versionCache s !! getCacheKey ty pv).
Qed.

Lemma spawn_checkAndRefreshCache ty pv s :
  (fetchLog (checkAndRefreshCache ty pv s) = fetchLog s /\
   tasks (checkAndRefreshCache ty pv s) = tasks s) \/
  (fetchLog (checkAndRefreshCache ty pv s) = (fetchLog s ++ [(ty, pv)])%list /\
   exists t, task_key t = (ty, pv) /\
     tasks (checkAndRefreshCache ty pv s) = (tasks s ++ [Some t])%list).
Proof.
  unfold checkAndRefreshCache.
  destruct (entryOf s _) as [e|]; [destruct (negb _)|];
    auto using spawn_refreshCacheEntry.
Qed.

Lemma spawn_lookupLatestVersion ty pv s :
  (fetchLog (fst (lookupLatestVersion ty pv s)) = fetchLog s /\
   tasks (fst (lookupLatestVersion ty pv s)) = tasks s) \/
  (fetchLog (fst (lookupLatestVersion ty pv s)) = (fetchLog s ++ [(ty, pv)])%list /\
   exists t, task_key t = (ty, pv) /\
     tasks (fst (lookupLatestVersion ty pv s)) = (tasks s ++ [Some t])%list).
Proof.
  assert (Hmiss : fetchLog (suspend (Miss ty pv) (invokeFetcher ty pv s))
                  = (fetchLog s ++ [(ty, pv)])%list /\
            exists t, task_key t = (ty, pv) /\
              tasks (suspend (Miss ty pv) (invokeFetcher ty pv s))
              = (tasks s ++ [Some t])%list).
  { split; [done|]. by exists (Miss ty pv). }
  unfold lookupLatestVersion.
  destruct (getCachedVersion s ty pv) as [v|]; [destruct (truthy v)|]; cbn [fst];
    auto using spawn_checkAndRefreshCache.
Qed.

Lemma fetchLog_settle id o s : fetchLog (fst (settle id o s)) = fetchLog s.
Proof.
  unfold settle. destruct (tasks s !! id) as [[t|]|]; [|done..].
  destruct t as [ty pv|ty pv held|ty pv g].
  - unfold lookupLatestVersion_resume. by destruct (lookupLatestVersionInternal _ _ _).
  - simpl. unfold refreshCacheEntry_resume.
    destruct (lookupLatestVersionInternal _ _ _); [done|]. by destruct held.
  - unfold initCallback_resume, promiseAll_settle.
    destruct (lookupLatestVersionInternal _ _ _); simpl;
      by destruct (initPending s !! g) as [[|n]|].
Qed.

(** X9.  Which events invoke the Fetcher: a lookup or a refresh trigger at
    most once, and then for its own key; [initializeCache] once for each of
    the four combinations, in order; a clock change, a status call and the
    settling of a Fetcher call never -- a failed fetch is not retried on its
    own. *)
Theorem fetcher_calls_per_event s ev :
  let s' := fst (step s ev) in
  match ev with
  | EvLookup ty pv | EvCheckAndRefresh ty pv =>
      fetchLog s' = fetchLog s \/ fetchLog s' = (fetchLog s ++ [(ty, pv)])%list
  | EvInit =>
      fetchLog s' = (fetchLog s ++ [(win, false); (win, true); (linux, false);
                                    (linux, true)])%list
  | EvClock _ | EvStatus | EvSettle _ _ => fetchLog s' = fetchLog s
  end.
Proof.
  destruct ev as [t|ty pv|ty pv| | |id o]; cbn [step fst]; cbv zeta.
  - done.
  - destruct (spawn_lookupLatestVersion ty pv s) as [[-> _] | [-> _]]; auto.
  - destruct (spawn_checkAndRefreshCache ty pv s) as [[-> _] | [-> _]]; auto.
  - by rewrite initializeCache_eq.
  - done.
  - apply fetchLog_settle.
Qed.

Lemma paired_snoc (ts : list (option Task)) (log : list Key) t :
  length ts = length log ->
  (forall id t', ts !! id = Some (Some t') -> log !! id = Some (task_key t')) ->
  forall id t', (ts ++ [Some t])%list !! id = Some (Some t') ->
                (log ++ [task_key t])%list !! id = Some (task_key t').
Proof.
  intros Hlen Hp id t' [Hold | [-> [= <-]]]%lookup_snoc_Some.
  - apply lookup_app_l_Some. eauto.
  - rewrite Hlen. apply lookup_snoc_length.
Qed.

(** X10.  Every Fetcher call has exactly one suspended call waiting for it:
    in every reachable state there are as many task slots as Fetcher
    invocations, and the call in flight in slot [id] waits for invocation
    number [id], which was made for that call's key. *)
Theorem fetcher_calls_paired s :
  reachable s ->
  length (tasks s) = length (fetchLog s) /\
  forall id t, inFlight s id t -> fetchLog s !! id = Some (task_key t).
Proof.
  unfold inFlight. induction 1 as [|s ev Hr [Hlen Hp]].
  { split; [done|]. intros id t. simpl. by rewrite lookup_nil. }
  assert (Hspawn : forall s',
    (fetchLog s' = fetchLog s /\ tasks s' = tasks s) \/
    (exists k, fetchLog s' = (fetchLog s ++ [k])%list /\
       exists t, task_key t = k /\ tasks s' = (tasks s ++ [Some t])%list) ->
    length (tasks s') = length (fetchLog s') /\
    forall id t, tasks s' !! id = Some (Some t) ->
                 fetchLog s' !! id = Some (task_key t)).
  { intros s' [[-> ->] | (k & -> & t & <- & ->)]; [done|].
    split; [rewrite !length_app; simpl; lia|]. by apply paired_snoc. }
  destruct ev as [t|ty pv|ty pv| | |id o]; cbn [step fst].
  - done.
  - apply Hspawn. destruct (spawn_lookupLatestVersion ty pv s) as [?|[? ?]]; eauto.
  - apply Hspawn. destruct (spawn_checkAndRefreshCache ty pv s) as [?|[? ?]]; eauto.
  - rewrite initializeCache_eq. cbn [tasks fetchLog]. split.
    + rewrite !length_app, length_map. simpl. lia.
    + intros id t. rewrite !lookup_app. rewrite Hlen.
      destruct (tasks s !! id) as [ot|] eqn:Ht.
      * intros [= ->]. by rewrite (Hp id t Ht).
      * apply lookup_ge_None in Ht. rewrite Hlen in Ht.
        rewrite (lookup_ge_None_2 (fetchLog s)) by done.
        destruct (id - length (fetchLog s))%nat as [|[|[|[|n]]]]; simpl;
          by intros [= <-].
  - done.
  - rewrite fetchLog_settle. destruct (tasks_settle id o s) as [-> | ->]; [done|].
    split; [by rewrite length_insert|].
    intros id' t [_ Ht]%lookup_insert_None_Some. eauto.
Qed.

Lemma fetcher_calls_paired_witness :
  let s := exec initial run_refreshing in
  reachable s /\ inFlight s 1 (Refresh win false (Some 0%nat)) /\
  fetchLog s !! 1%nat = Some (win, false).
Proof.
  cbv zeta.
  assert (Hr : reachable (exec initial run_refreshing))
    by (apply reachable_exec, reach_initial).
  assert (Hi : inFlight (exec initial run_refreshing) 1
                 (Refresh win false (Some 0%nat))) by (by vm_compute).
  split; [exact Hr|]. split; [exact Hi|].
  exact (proj2 (fetcher_calls_paired _ Hr) 1%nat _ Hi).
Defined.

(** ** Fresh entries and other keys *)




Lemma entryOf_refreshCacheEntry_other ty pv s key :
  WF s -> key <> getCacheKey ty pv ->
  entryOf (refreshCacheEntry ty pv s) key = entryOf s key.
Proof.
  intros Hwf Hne.
  destruct (refreshCacheEntry_cases ty pv s) as [[_ ->] | [_ ->]]; [done|].
  change (entryOf (writeRefreshing (versionCache s !! getCacheKey ty pv) true s) key
          = entryOf s key).
  rewrite entryOf_writeRefreshing.
  destruct (entryOf s key) as [e|] eqn:He; [|done]. simpl.
  rewrite decide_False; [done|]. intros Heq.
  apply entryOf_Some in He as (l & Hl & _). rewrite Hl in Heq.
  by apply Hne, (wf_inj s Hwf key (getCacheKey ty pv) l).
Qed.

(** X12.  Keys do not interfere: in a reachable state, an event about one
    key -- a lookup, a refresh trigger, the settling of a call for that
    key, successful or not -- leaves the entry of every other key exactly as
    it was, flag included; events about no key (clock, status, the start of
    [initializeCache]) leave every entry as it was. *)
Theorem other_keys_untouched s ev ty pv :
  reachable s ->
  event_key s ev <> Some (ty, pv) ->
  entryOf (fst (step s ev)) (getCacheKey ty pv) = entryOf s (getCacheKey ty pv).
Proof.
  intros Hr Hne. pose proof (reachable_WF s Hr) as Hwf.
  assert (Hc : forall ty' pv', (ty', pv') <> (ty, pv) ->
            entryOf (checkAndRefreshCache ty' pv' s) (getCacheKey ty pv)
            = entryOf s (getCacheKey ty pv)).
  { intros ty' pv' Hk. unfold checkAndRefreshCache.
    destruct (entryOf s (getCacheKey ty' pv')) as [e|]; [destruct (negb _)|];
      try done; apply entryOf_refreshCacheEntry_other; try done;
      apply not_eq_sym; by apply getCacheKey_ne. }
  destruct ev as [t|ty' pv'|ty' pv'| | |id o]; cbn [step fst]; simpl in Hne.
  - done.
  - assert (Hk : (ty', pv') <> (ty, pv)) by congruence.
    unfold lookupLatestVersion.
    destruct (getCachedVersion s ty' pv') as [v|]; [destruct (truthy v)|];
      cbn [fst]; auto.
  - apply Hc. congruence.
  - by rewrite initializeCache_eq.
  - done.
  - unfold settle. destruct (tasks s !! id) as [[t|]|] eqn:Ht; [|done..].
    assert (Hk : task_key t <> (ty, pv)) by congruence.
    pose proof (WF_clear_task id s Hwf) as Hwf0.
    set (s0 := set_tasks (<[id:=None]> (tasks s)) s) in *.
    assert (Hset : forall ty' pv' v, (ty', pv') <> (ty, pv) ->
              entryOf (setCachedVersion ty' pv' v s0) (getCacheKey ty pv)
              = entryOf s (getCacheKey ty pv)).
    { intros ty' pv' v Hk'. rewrite entryOf_setCachedVersion_ne; [done..|].
      apply not_eq_sym. by apply getCacheKey_ne. }
    destruct t as [ty' pv'|ty' pv' held|ty' pv' g]; simpl in Hk.
    + unfold lookupLatestVersion_resume.
      destruct (lookupLatestVersionInternal ty' pv' o); cbn [fst]; auto.
    + cbn [fst]. unfold refreshCacheEntry_resume.
      destruct (lookupLatestVersionInternal ty' pv' o); [auto|].
      rewrite entryOf_writeRefreshing.
      change (entryOf s0 (getCacheKey ty pv)) with (entryOf s (getCacheKey ty pv)).
      destruct (entryOf s (getCacheKey ty pv)) as [e|] eqn:He; [|done]. simpl.
      rewrite decide_False; [done|]. intros Heq.
      apply entryOf_Some in He as (l & Hl & _).
      change (versionCache s0) with (versionCache s) in Heq. rewrite Hl in Heq.
      subst held. destruct (wf_captured s Hwf id ty' pv' l Ht) as [_ Hown].
      apply Hown, getCacheKey_inj in Hl as [-> ->]. done.
    + unfold initCallback_resume.
      destruct (lookupLatestVersionInternal ty' pv' o);
        rewrite entryOf_promiseAll_settle; auto.
Qed.

Lemma other_keys_untouched_witness :
  let s := exec initial (run_refreshing ++ [EvLookup linux false]) in
  let ev := EvSettle 2 (PageHref (href_of "1.0.0.7")) in
  reachable s /\ event_key s ev <> Some (win, false) /\
  entryOf (fst (step s ev)) (getCacheKey win false)
  = Some (mkEntry "1.0.0.0" 0 true).
Proof.
  cbv zeta.
  match goal with |- reachable ?s /\ _ =>
    assert (Hr : reachable s) by (apply reachable_exec, reach_initial) end.
  match goal with |- _ /\ ?P /\ _ => assert (Hk : P) by (by vm_compute) end.
  split; [exact Hr|]. split; [exact Hk|].
  rewrite (other_keys_untouched _ _ win false Hr Hk). by vm_compute.
Defined.

(** ** The [/version] route *)

(** X13.  A request whose type is not "win" or "linux", or whose preview
    parameter [parsePreviewParam] does not accept, is answered 400 at once
    and leaves the state as it was: no Fetcher call, no entry marked.  The
    type is checked first: with both parameters invalid the answer is the
    one about the type, quoting the type received. *)
Theorem invalid_request_rejected type preview s :
  ~ (type = "win" \/ type = "linux") \/ parsePreviewParam preview = None ->
  exists error message received,
    versionHandler type preview s
    = (s, Responded (mkResponse 400 (ErrorBody error message (Some received)))) /\
    ((~ (type = "win" \/ type = "linux") /\
      error = "Invalid type parameter" /\
      message = "Type must be one of: win, linux" /\ received = type) \/
     ((type = "win" \/ type = "linux") /\
      error = "Invalid preview parameter" /\
      message = "Preview must be 'true', 'false', '1', or '0'" /\
      received = preview)).
Proof.
  intros Hbad. unfold versionHandler.
  destruct (isValidBdsType type) eqn:Hv.
  - pose proof (proj1 (isValidBdsType_iff type) Hv) as Hty.
    assert (Ht : truthy type = true) by (by destruct Hty as [-> | ->]).
    rewrite Ht. simpl. destruct Hbad as [Hbad | ->]; [done|].
    eexists _, _, _. split; [done|]. right. by repeat split.
  - rewrite orb_true_r. eexists _, _, _. split; [done|]. left.
    repeat split; try done. intros Hty.
    apply isValidBdsType_iff in Hty. congruence.
Qed.

Lemma invalid_request_rejected_witness :
  (~ ("WIN" = "win" \/ "WIN" = "linux") \/ parsePreviewParam "maybe" = None) /\
  versionHandler "WIN" "maybe" initial
  = (initial,
     Responded (mkResponse 400
        (ErrorBody "Invalid type parameter" "Type must be one of: win, linux"
           (Some "WIN")))).
Proof.
  assert (H : ~ ("WIN" = "win" \/ "WIN" = "linux") \/ parsePreviewParam "maybe" = None)
    by (by right).
  split; [exact H|].
  destruct (invalid_request_rejected "WIN" "maybe" initial H)
    as (e & m & r & -> & [(_ & -> & -> & ->) | ([Hw | Hw] & _)]);
    [reflexivity|discriminate Hw..].
Defined.

(** X14.  A request with valid parameters, in a reachable state.  If the key
    is cached the answer is immediate: 200 with the cached version and
    [cached: true], after at most the launch of a background refresh.  If
    it is not, the handler makes exactly one Fetcher call and waits for it,
    having noted [cached: false]. *)
Theorem valid_request_served type preview parsedPreview s :
  reachable s ->
  type = "win" \/ type = "linux" ->
  parsePreviewParam preview = Some parsedPreview ->
  let bdsType := asBdsType type in
  bdsTypeStr bdsType = type /\
  match getCachedVersion s bdsType parsedPreview with
  | Some v =>
      versionHandler type preview s
      = (checkAndRefreshCache bdsType parsedPreview s,
         Responded (mkResponse 200 (VersionBody v type parsedPreview true (now s))))
  | None =>
      let s1 := suspend (Miss bdsType parsedPreview)
                  (invokeFetcher bdsType parsedPreview s) in
      versionHandler type preview s
      = (s1, Awaiting type bdsType parsedPreview false) /\
      fetchLog s1 = (fetchLog s ++ [(bdsType, parsedPreview)])%list /\
      inFlight s1 (length (tasks s)) (Miss bdsType parsedPreview)
  end.
Proof.
  intros Hr Hty Hp bdsType. subst bdsType.
  assert (Hv : isValidBdsType type = true) by (by apply isValidBdsType_iff).
  assert (Ht : truthy type = true) by (by destruct Hty as [-> | ->]).
  split; [by destruct Hty as [-> | ->]|].
  unfold versionHandler. rewrite Ht, Hv, Hp. cbn [negb orb]. cbv zeta.
  destruct (getCachedVersion s (asBdsType type) parsedPreview) as [v|] eqn:Hc.
  - pose proof Hc as (e & He & <-)%getCachedVersion_Some.
    rewrite (lookupLatestVersion_hit s _ _ e He) by eauto using reachable_truthy.
    assert (Hnow : now (checkAndRefreshCache (asBdsType type) parsedPreview s) = now s).
    { unfold checkAndRefreshCache. destruct (entryOf s _) as [e1|];
        [destruct (negb _)|]; try done;
        destruct (refreshCacheEntry_cases (asBdsType type) parsedPreview s)
          as [[_ ->] | [_ ->]]; try done;
        by destruct (versionCache s !! _). }
    unfold versionResponse. by rewrite Hnow.
  - apply getCachedVersion_None in Hc.
    rewrite (lookupLatestVersion_miss s _ _ Hc). split; [done|]. split; [done|].
    unfold inFlight, suspend. simpl. apply lookup_snoc_length.
Qed.

Lemma valid_request_served_witness :
  let s := exec initial run_cached in
  reachable s /\ parsePreviewParam "FALSE" = Some false /\
  versionHandler "win" "FALSE" s
  = (s, Responded (mkResponse 200 (VersionBody "1.0.0.0" "win" false true 0))).
Proof.
  cbv zeta.
  assert (Hr : reachable (exec initial run_cached))
    by (apply reachable_exec, reach_initial).
  assert (Hp : parsePreviewParam "FALSE" = Some false) by reflexivity.
  split; [exact Hr|]. split; [exact Hp|].
  pose proof (proj2 (valid_request_served "win" "FALSE" false _ Hr
                       (or_introl eq_refl) Hp)) as H.
  cbv zeta in H.
  change (getCachedVersion (exec initial run_cached) (asBdsType "win") false)
    with (Some "1.0.0.0") in H.
  rewrite H. by vm_compute.
Defined.

(** X15.  The answer to a request that waited.  When the Fetcher call of a
    waiting request returns a version, the request is answered 200 with that
    version and [cached: false], and a request for the same key right after
    it is answered at once with the same version and [cached: true], making
    no Fetcher call.  When the call fails, the request is answered 500 with
    the error's message, or with "Failed to lookup version" when that
    message is empty, and nothing is cached. *)
Theorem awaited_request_answered type parsedPreview id o s :
  type = "win" \/ type = "linux" ->
  let bdsType := asBdsType type in
  inFlight s id (Miss bdsType parsedPreview) ->
  let h := Awaiting type bdsType parsedPreview false in
  match lookupLatestVersionInternal bdsType parsedPreview o with
  | Ok v =>
      exists s1,
        versionHandler_resume h id o s
        = (s1, Some (mkResponse 200 (VersionBody v type parsedPreview false (now s)))) /\
        forall preview,
          parsePreviewParam preview = Some parsedPreview ->
          versionHandler type preview s1
          = (s1, Responded
                   (mkResponse 200 (VersionBody v type parsedPreview true (now s))))
  | Err msg =>
      exists s1,
        versionHandler_resume h id o s
        = (s1, Some (mkResponse 500
                       (ErrorBody "Internal server error"
                          (if String.eqb msg "" then "Failed to lookup version"
                           else msg) None))) /\
        forall key, entryOf s1 key = entryOf s key
  end.
Proof.
  intros Hty bdsType Hin h. subst bdsType h.
  unfold versionHandler_resume, settle. unfold inFlight in Hin. rewrite Hin.
  set (ty := asBdsType type) in *.
  destruct (lookupLatestVersionInternal ty parsedPreview o) as [v|msg] eqn:Hf;
    cbn [lookupLatestVersion_resume].
  - set (s0 := set_tasks (<[id:=None]> (tasks s)) s).
    exists (setCachedVersion ty parsedPreview v s0).
    assert (Hnow : now (setCachedVersion ty parsedPreview v s0) = now s) by done.
    split; [reflexivity|].
    intros preview Hp.
    assert (Hv : isValidBdsType type = true) by (by apply isValidBdsType_iff).
    assert (Ht : truthy type = true) by (by destruct Hty as [-> | ->]).
    pose proof (entryOf_setCachedVersion_eq ty parsedPreview v s0) as He.
    assert (Hc : getCachedVersion (setCachedVersion ty parsedPreview v s0) ty
                   parsedPreview = Some v).
    { apply getCachedVersion_Some. eauto. }
    unfold versionHandler. rewrite Ht, Hv, Hp. cbn [negb orb]. cbv zeta.
    fold ty. rewrite Hc.
    rewrite (lookupLatestVersion_hit _ _ _ _ He)
      by (simpl; eauto using lookupLatestVersionInternal_truthy).
    unfold checkAndRefreshCache. rewrite He.
    assert (Hvalid : isCacheValid (setCachedVersion ty parsedPreview v s0)
                       (mkEntry v (now s0) false) = true).
    { unfold isCacheValid. rewrite Hnow. simpl.
      replace (now s - now s) with 0 by lia. done. }
    rewrite Hvalid. reflexivity.
  - exists (set_tasks (<[id:=None]> (tasks s)) s). split; [|done].
    simpl. by destruct msg.
Qed.

Lemma awaited_request_answered_witness :
  let s := fst (versionHandler "linux" "1" initial) in
  inFlight s 0 (Miss linux true) /\
  exists s1,
    versionHandler_resume (Awaiting "linux" linux true false) 0
      (PageHref (href_of "1.21.84.1")) s
    = (s1, Some (mkResponse 200 (VersionBody "1.21.84.1" "linux" true false 0))) /\
    versionHandler "linux" "true" s1
    = (s1, Responded (mkResponse 200 (VersionBody "1.21.84.1" "linux" true true 0))).
Proof.
  cbv zeta.
  assert (Hin : inFlight (fst (versionHandler "linux" "1" initial)) 0 (Miss linux true))
    by reflexivity.
  split; [exact Hin|].
  pose proof (awaited_request_answered "linux" true 0
                (PageHref (href_of "1.21.84.1")) _ (or_intror eq_refl) Hin) as H.
  cbv zeta in H.
  change (lookupLatestVersionInternal (asBdsType "linux") true
            (PageHref (href_of "1.21.84.1"))) with (Ok "1.21.84.1") in H.
  destruct H as (s1 & H1 & H2). exists s1. split; [exact H1|].
  exact (H2 "true" eq_refl).
Defined.

(** ** The [/cache/status] route *)

(** X16.  In every reachable state the status listing has one entry for
    each of the four combinations, in the order win/stable, win/preview,
    linux/stable, linux/preview; an entry's [version] is the cached version
    or [null], and its [cached] flag is true exactly when the version is not
    [null]; the TTL is reported as 21600000 ms and 6 hours. *)
Theorem status_listing s :
  reachable s ->
  entries (cacheStatus s)
  = map (fun k =>
           mkStatusEntry k.1 k.2
             (bool_decide (getCachedVersion s k.1 k.2 <> None))
             (getCachedVersion s k.1 k.2))
        [(win, false); (win, true); (linux, false); (linux, true)] /\
  (forall e, In e (entries (cacheStatus s)) ->
     (st_cached e = true <-> st_version e <> None) /\
     st_version e = getCachedVersion s (st_type e) (st_preview e)) /\
  cacheDurationMs (cacheStatus s) = 21600000 /\
  cacheDurationHours (cacheStatus s) = 6.
Proof.
  intros Hr.
  assert (Hentry : forall ty pv,
            mkStatusEntry ty pv
              (match getCachedVersion s ty pv with Some _ => true | None => false end)
              (match getCachedVersion s ty pv with
               | Some v => if truthy v then Some v else None
               | None => None
               end)
            = mkStatusEntry ty pv
                (bool_decide (getCachedVersion s ty pv <> None))
                (getCachedVersion s ty pv)).
  { intros ty pv. destruct (getCachedVersion s ty pv) as [v|] eqn:Hv; [|done].
    apply getCachedVersion_Some in Hv as (e & He & <-).
    by rewrite (reachable_truthy s _ e Hr He). }
  assert (Heq : entries (cacheStatus s)
            = map (fun k =>
                     mkStatusEntry k.1 k.2
                       (bool_decide (getCachedVersion s k.1 k.2 <> None))
                       (getCachedVersion s k.1 k.2))
                  [(win, false); (win, true); (linux, false); (linux, true)]).
  { simpl. by rewrite !Hentry. }
  split; [exact Heq|]. split; [|done].
  intros e. rewrite Heq. simpl.
  intros [<- | [<- | [<- | [<- | []]]]]; simpl;
    (split; [|done]); rewrite bool_decide_eq_true; done.
Qed.

Lemma status_listing_witness :
  let s := exec initial run_cached in
  reachable s /\
  entries (cacheStatus s)
  = [mkStatusEntry win false true (Some "1.0.0.0"); mkStatusEntry win true false None;
     mkStatusEntry linux false false None; mkStatusEntry linux true false None].
Proof.
  cbv zeta.
  assert (Hr : reachable (exec initial run_cached))
    by (apply reachable_exec, reach_initial).
  split; [exact Hr|]. rewrite (proj1 (status_listing _ Hr)). by vm_compute.
Defined.
